(** * Vote ingestion pipeline of [datavotes.js]

    A shallow embedding of the database and polling functions of
    [src/datavotes.js] ([initializeDatabase], [getStoredVotes],
    [saveVotesToDatabase], [fetchVotesFromApi], [pollVotes]) and the
    properties of the ingestion, de-duplication and accumulation pipeline.

    The program talks to two external parties: a MySQL table [votes] and the
    HTTP sources.  Both are modelled explicitly:
    - the table is a finite map from nickname to vote count (the columns
      [id] and [timestamp] are never read by the program and are left out;
      the [votes] column is an unbounded integer and nicknames are compared
      exactly, as [Array.prototype.includes] does);
    - what the outside does (HTTP answers, statements the database rejects)
      is an oracle [Env];
    - everything the program does to the outside (statements sent, requests,
      timers, console lines) is appended to a chronological [log].

    JavaScript exceptions and rejected promises are the [Throw] result of a
    small state-and-error monad; [try_catch] is the [try]/[catch] block.

    The callers of these functions are embedded too: the split of
    [API_URLS] into the source list, and the two Discord handlers ([ready]
    and [interactionCreate]), whose calls into discord.js are recorded in a
    trace of their own. *)

From Stdlib Require Import ZArith Ascii String List Lia.
From stdpp Require Import base gmap strings list pretty.

Local Open Scope Z_scope.

(** ** Data *)

(** One element of the [voters] array of a source, [{ nickname, votes }]. *)
Record VoterRecord := mkVote { nickname : string; votes : Z }.

#[global] Instance VoterRecord_eq_dec : EqDecision VoterRecord.
Proof. solve_decision. Defined.

(** The three SQL statements the program sends. *)
Inductive Stmt :=
| CreateTable                          (* CREATE TABLE IF NOT EXISTS votes ... *)
| SelectVotes                          (* SELECT nickname, votes FROM votes *)
| UpsertVote (nick : string) (v : Z).  (* INSERT ... ON DUPLICATE KEY UPDATE votes = votes + VALUES(votes) *)

(** What [response.json()] yields. [voters = None] stands for a [voters]
    property that is not an array. *)
Inductive Payload :=
| JsonNull
| JsonObject (voters : option (list VoterRecord)).

Inductive Body :=
| BodyInvalid (msg : string)           (* response.json() rejects *)
| BodyJson (data : Payload).

Inductive HttpOutcome :=
| FetchRejects (msg : string)          (* the request could not complete *)
| HttpResponse (ok : bool) (statusText : string) (body : Body).

(** The lines written to the console, one constructor per call site. *)
Inductive Line :=
| TableInitialized
| InitError (attempt : nat) (msg : string)
| InitStack
| MaxRetriesReached
| Retrying
| StoredVotesRetrieved (rows : list VoterRecord)
| StoredVotesError (msg : string)
| VotesSaved
| SaveError (msg : string)
| FetchingFrom (url : string)
| StatusError (url statusText : string)
| ApiResponse (data : Payload)
| NewVotesToSave (newVotes : list VoterRecord)
| NoNewVotes
| InvalidFormat
| FetchError (url msg : string)
| PollingApi (url : string)
| PollFailed (url msg : string)
| TotalNewVotes (newVotes : list VoterRecord).

Inductive Event :=
| EvQuery (s : Stmt)
| EvFetch (url : string)
| EvSleep (ms : Z)
| EvLog (l : Line)
| EvError (l : Line).

(** The outside world: the answer of each URL (the same whenever the URL is
    fetched), and, for the [k]-th statement sent to the database, the
    message it is rejected with (if it is). A rejected statement changes
    nothing. *)
Record Env := mkEnv {
  http : string -> HttpOutcome;
  db_fault : nat -> Stmt -> option string
}.

Record World := mkWorld {
  table : gmap string Z;
  dbclock : nat;
  log : list Event
}.

(** ** The monad of asynchronous functions *)

Inductive Result (A : Type) :=
| Ret (a : A)
| Throw (msg : string).
Arguments Ret {A} a.
Arguments Throw {A} msg.

Definition M (A : Type) : Type := World -> Result A * World.

Definition ret {A} (a : A) : M A := fun w => (Ret a, w).

Definition throw {A} (msg : string) : M A := fun w => (Throw msg, w).

Definition bind {A B} (m : M A) (k : A -> M B) : M B :=
  fun w =>
    match m w with
    | (Ret a, w1) => k a w1
    | (Throw msg, w1) => (Throw msg, w1)
    end.

Definition try_catch {A} (m : M A) (handler : string -> M A) : M A :=
  fun w =>
    match m w with
    | (Ret a, w1) => (Ret a, w1)
    | (Throw msg, w1) => handler msg w1
    end.

Declare Scope js_scope.
Delimit Scope js_scope with js.
Notation "x <- c1 ;; c2" := (bind c1 (fun x => c2))
  (at level 100, c1 at next level, right associativity) : js_scope.
Notation "c1 ;; c2" := (bind c1 (fun _ => c2))
  (at level 100, right associativity) : js_scope.
Local Open Scope js_scope.

Definition emit (e : Event) : M unit :=
  fun w => (Ret tt, mkWorld (table w) (dbclock w) (log w ++ [e])).

Definition console_log (l : Line) : M unit := emit (EvLog l).
Definition console_error (l : Line) : M unit := emit (EvError l).

(** [await new Promise(res => setTimeout(res, ms))] *)
Definition sleep (ms : Z) : M unit := emit (EvSleep ms).

(** ** The table *)

(** [INSERT INTO votes (nickname, votes) VALUES (n, v)
     ON DUPLICATE KEY UPDATE votes = votes + VALUES(votes)] *)
Definition upsert (n : string) (v : Z) (t : gmap string Z) : gmap string Z :=
  match t !! n with
  | Some c => <[n := c + v]> t
  | None => <[n := v]> t
  end.

Definition apply_stmt (s : Stmt) (t : gmap string Z) : gmap string Z :=
  match s with
  | UpsertVote n v => upsert n v t
  | CreateTable | SelectVotes => t
  end.

Definition rows_of (t : gmap string Z) : list VoterRecord :=
  (fun r => mkVote r.1 r.2) <$> map_to_list t.

Definition result_rows (s : Stmt) (t : gmap string Z) : list VoterRecord :=
  match s with
  | SelectVotes => rows_of t
  | CreateTable | UpsertVote _ _ => []
  end.

(** [Promise.all] over promises that have all been started: every one runs
    to its own outcome, whatever the others do, and the whole rejects with a
    rejection of one of them. The statements of a batch are taken to settle
    in array order, and all of them before the caller goes on; so the
    rejection that wins is the first one in array order.

    This is what the code does when no statement of the batch is rejected:
    [Promise.all] then waits for every row. When a row is rejected the code
    goes on at the first rejection in time, with other rows possibly still
    on their way; the state given here is then the one reached once every
    row has settled, and the rejection kept here is one of those of the
    batch. What depends on more than that (which rejection is reported,
    what a later read sees of rows still on their way) is stated below for
    a database that accepts every write. *)
Fixpoint settle_all {A} (ps : list (M A)) : World -> list (Result A) * World :=
  fun w =>
    match ps with
    | [] => ([], w)
    | p :: rest =>
        let (r, w1) := p w in
        let (rs, w2) := settle_all rest w1 in
        (r :: rs, w2)
    end.

Fixpoint all_settled {A} (rs : list (Result A)) : Result (list A) :=
  match rs with
  | [] => Ret []
  | Throw msg :: _ => Throw msg
  | Ret a :: rest =>
      match all_settled rest with
      | Ret l => Ret (a :: l)
      | Throw msg => Throw msg
      end
  end.

Definition Promise_all {A} (ps : list (M A)) : M (list A) :=
  fun w => let (rs, w1) := settle_all ps w in (all_settled rs, w1).

Section Program.

Context (env : Env).

(** [db.query(sql)] / [db.execute(sql, params)]: the statement is sent; the
    database either rejects it, leaving the table as it is, or applies it. *)
Definition db_query (s : Stmt) : M (list VoterRecord) :=
  fun w =>
    let sent := log w ++ [EvQuery s] in
    match db_fault env (dbclock w) s with
    | Some msg => (Throw msg, mkWorld (table w) (S (dbclock w)) sent)
    | None =>
        (Ret (result_rows s (table w)),
         mkWorld (apply_stmt s (table w)) (S (dbclock w)) sent)
    end.

(** ** [initializeDatabase] (lines 23-53) *)

Definition maxRetries : nat := 5.

(** The [while (retries < maxRetries)] loop. [fuel] bounds the number of
    iterations; [None] means the bound was hit with the loop still running. *)
Fixpoint initializeDatabase_loop (fuel : nat) (retries : nat)
  : World -> option (Result unit * World) :=
  fun w =>
    match fuel with
    | O => None
    | S fuel' =>
        if (retries <? maxRetries)%nat then
          match db_query CreateTable w with
          | (Ret _, w1) => Some (console_log TableInitialized w1)
          | (Throw msg, w1) =>
              let retries := S retries in
              let handler :=
                console_error (InitError retries msg) ;;
                console_error InitStack ;;
                if (maxRetries <=? retries)%nat
                then console_error MaxRetriesReached
                else (console_log Retrying ;; sleep 5000) in
              match handler w1 with
              | (Ret _, w2) => initializeDatabase_loop fuel' retries w2
              | (Throw msg', w2) => Some (Throw msg', w2)
              end
          end
        else Some (Ret tt, w)
    end.

Definition initializeDatabase : World -> option (Result unit * World) :=
  initializeDatabase_loop (S maxRetries) 0.

(** ** [getStoredVotes] (lines 56-65) *)

Definition getStoredVotes : M (list VoterRecord) :=
  try_catch
    (rows <- db_query SelectVotes ;;
     console_log (StoredVotesRetrieved rows) ;;
     ret rows)
    (fun error =>
       console_error (StoredVotesError error) ;;
       ret []).

(** ** [saveVotesToDatabase] (lines 68-82) *)

Definition saveVotesToDatabase (newVotes : list VoterRecord) : M unit :=
  try_catch
    (let promises :=
       map (fun vote => db_query (UpsertVote (nickname vote) (votes vote)))
           newVotes in
     Promise_all promises ;;
     console_log VotesSaved)
    (fun error => console_error (SaveError error)).

(** ** [fetchVotesFromApi] (lines 85-121) *)

Definition fetch (url : string) : M (bool * string * Body) :=
  fun w =>
    let w1 := mkWorld (table w) (dbclock w) (log w ++ [EvFetch url]) in
    match http env url with
    | FetchRejects msg => (Throw msg, w1)
    | HttpResponse ok statusText body => (Ret (ok, statusText, body), w1)
    end.

Definition response_json (body : Body) : M Payload :=
  match body with
  | BodyInvalid msg => throw msg
  | BodyJson data => ret data
  end.

(** [data.voters]: reading a property of [null] throws a [TypeError]. *)
Definition data_voters (data : Payload) : M (option (list VoterRecord)) :=
  match data with
  | JsonNull => throw "Cannot read properties of null (reading 'voters')"
  | JsonObject voters => ret voters
  end.

Definition fetchVotesFromApi (apiUrl : string) : M (list VoterRecord) :=
  console_log (FetchingFrom apiUrl) ;;
  try_catch
    (response <- fetch apiUrl ;;
     let '(ok, statusText, body) := response in
     if negb ok then
       console_error (StatusError apiUrl statusText) ;;
       ret []
     else
       data <- response_json body ;;
       console_log (ApiResponse data) ;;
       voters <- data_voters data ;;
       match voters with
       | Some voters =>
           storedVotes <- getStoredVotes ;;
           let storedNicknames := map nickname storedVotes in
           let newVotes :=
             filter (fun vote => nickname vote ∉ storedNicknames) voters in
           (if (0 <? length newVotes)%nat then
              console_log (NewVotesToSave newVotes) ;;
              saveVotesToDatabase newVotes
            else console_log NoNewVotes) ;;
           ret newVotes
       | None =>
           console_error InvalidFormat ;;
           ret []
       end)
    (fun error =>
       console_error (FetchError apiUrl error) ;;
       ret []).

(** ** [pollVotes] (lines 124-137) *)

(** The [for (const apiUrl of apiUrls)] loop; [newVotes] is the array the
    loop pushes to. *)
Fixpoint pollVotes_loop (apiUrls : list string) (newVotes : list VoterRecord)
  : M (list VoterRecord) :=
  match apiUrls with
  | [] => ret newVotes
  | apiUrl :: rest =>
      newVotes <-
        try_catch
          (console_log (PollingApi apiUrl) ;;
           votesFromApi <- fetchVotesFromApi apiUrl ;;
           ret (newVotes ++ votesFromApi))
          (fun error =>
             console_error (PollFailed apiUrl error) ;;
             ret newVotes) ;;
      pollVotes_loop rest newVotes
  end.

Definition pollVotes (apiUrls : list string) : M (list VoterRecord) :=
  newVotes <- pollVotes_loop apiUrls [] ;;
  console_log (TotalNewVotes newVotes) ;;
  ret newVotes.

End Program.

(** ** Pure descriptions of what the database functions do *)

Definition upsert_row (t : gmap string Z) (vote : VoterRecord) : gmap string Z :=
  upsert (nickname vote) (votes vote) t.

Definition upsert_stmt (vote : VoterRecord) : Stmt :=
  UpsertVote (nickname vote) (votes vote).

(** Observers of the log. *)
Definition is_read (e : Event) : bool :=
  match e with EvQuery SelectVotes => true | _ => false end.

Definition is_save_outcome (e : Event) : bool :=
  match e with
  | EvLog VotesSaved | EvError (SaveError _) => true
  | _ => false
  end.

Definition is_effect (e : Event) : bool :=
  match e with
  | EvQuery _ | EvFetch _ | EvSleep _ => true
  | EvLog _ | EvError _ => false
  end.

Definition save_error_of (e : Event) : option string :=
  match e with EvError (SaveError msg) => Some msg | _ => None end.

Definition count (p : Event -> bool) (l : list Event) : nat :=
  length (List.filter p l).

(** Number of reads of the stored votes, and of completed batch saves. *)
Definition count_reads : list Event -> nat := count is_read.
Definition count_saves : list Event -> nat := count is_save_outcome.

(** The messages of the save errors written to the console. *)
Definition save_errors (l : list Event) : list string :=
  omap save_error_of l.

Section Descriptions.

Context (env : Env).

(** Rows of a batch the database accepts / rejects, the first statement of
    the batch being the [k]-th one sent. *)
Fixpoint accepted (k : nat) (rows : list VoterRecord) : list VoterRecord :=
  match rows with
  | [] => []
  | vote :: rest =>
      match db_fault env k (upsert_stmt vote) with
      | Some _ => accepted (S k) rest
      | None => vote :: accepted (S k) rest
      end
  end.

Fixpoint rejected (k : nat) (rows : list VoterRecord) : list (VoterRecord * string) :=
  match rows with
  | [] => []
  | vote :: rest =>
      match db_fault env k (upsert_stmt vote) with
      | Some msg => (vote, msg) :: rejected (S k) rest
      | None => rejected (S k) rest
      end
  end.

(** The table after a batch. *)
Fixpoint write_rows (k : nat) (rows : list VoterRecord) (t : gmap string Z)
  : gmap string Z :=
  match rows with
  | [] => t
  | vote :: rest =>
      write_rows (S k) rest
        (match db_fault env k (upsert_stmt vote) with
         | Some _ => t
         | None => upsert_row t vote
         end)
  end.

Fixpoint row_results (k : nat) (rows : list VoterRecord)
  : list (Result (list VoterRecord)) :=
  match rows with
  | [] => []
  | vote :: rest =>
      match db_fault env k (upsert_stmt vote) with
      | Some msg => Throw msg
      | None => Ret []
      end :: row_results (S k) rest
  end.

(** The line [saveVotesToDatabase] ends with. *)
Definition save_outcome (k : nat) (rows : list VoterRecord) : Event :=
  match rejected k rows with
  | [] => EvLog VotesSaved
  | (_, msg) :: _ => EvError (SaveError msg)
  end.

(** What the filter of [fetchVotesFromApi] compares with: the nicknames
    [getStoredVotes] yields when its statement is the [k]-th one. *)
Definition snapshot (t : gmap string Z) (k : nat) : list string :=
  match db_fault env k SelectVotes with
  | Some _ => []
  | None => map nickname (rows_of t)
  end.

Definition novel (t : gmap string Z) (k : nat) (voters : list VoterRecord)
  : list VoterRecord :=
  filter (fun vote => nickname vote ∉ snapshot t k) voters.

End Descriptions.

(** The [voters] array of an answer that passes every check of
    [fetchVotesFromApi]. *)
Definition voters_of (o : HttpOutcome) : option (list VoterRecord) :=
  match o with
  | HttpResponse true _ (BodyJson (JsonObject (Some voters))) => Some voters
  | _ => None
  end.

(** The failure kinds of a source. *)
Inductive FetchFailure := NetworkFailure | StatusFailure | ShapeFailure.

Definition failure_kind (o : HttpOutcome) : option FetchFailure :=
  match o with
  | FetchRejects _ => Some NetworkFailure
  | HttpResponse false _ _ => Some StatusFailure
  | HttpResponse true _ (BodyJson (JsonObject None)) => Some ShapeFailure
  | HttpResponse true _ _ => None
  end.

(** ** Pure descriptions of one source and of one cycle *)

Section SourceSummary.

Context (env : Env).

(** What one call of [fetchVotesFromApi] returns and leaves behind, as a
    function of the table [t] and of the number [k] of statements sent so
    far. *)
Definition source_novel (url : string) (t : gmap string Z) (k : nat)
  : list VoterRecord :=
  match voters_of (http env url) with
  | Some voters => novel env t k voters
  | None => []
  end.

Definition source_table (url : string) (t : gmap string Z) (k : nat)
  : gmap string Z :=
  match voters_of (http env url) with
  | Some voters => write_rows env (S k) (novel env t k voters) t
  | None => t
  end.

Definition source_clock (url : string) (t : gmap string Z) (k : nat) : nat :=
  match voters_of (http env url) with
  | Some voters => S k + length (novel env t k voters)
  | None => k
  end.

Definition source_reads (url : string) : nat :=
  match voters_of (http env url) with Some _ => 1 | None => 0 end.

Definition source_saves (url : string) (t : gmap string Z) (k : nat) : nat :=
  match source_novel url t k with [] => 0 | _ :: _ => 1 end.

End SourceSummary.

Section CycleSummary.

Context (env : Env).

(** The sources are handled one after the other, each one on the table the
    previous one left. *)
Fixpoint cycle_novel (urls : list string) (t : gmap string Z) (k : nat)
  : list VoterRecord :=
  match urls with
  | [] => []
  | url :: rest =>
      source_novel env url t k ++
      cycle_novel rest (source_table env url t k) (source_clock env url t k)
  end.

Fixpoint cycle_table (urls : list string) (t : gmap string Z) (k : nat)
  : gmap string Z :=
  match urls with
  | [] => t
  | url :: rest =>
      cycle_table rest (source_table env url t k) (source_clock env url t k)
  end.

Fixpoint cycle_clock (urls : list string) (t : gmap string Z) (k : nat) : nat :=
  match urls with
  | [] => k
  | url :: rest =>
      cycle_clock rest (source_table env url t k) (source_clock env url t k)
  end.

Fixpoint cycle_reads (urls : list string) : nat :=
  match urls with
  | [] => 0
  | url :: rest => source_reads env url + cycle_reads rest
  end.

Fixpoint cycle_saves (urls : list string) (t : gmap string Z) (k : nat) : nat :=
  match urls with
  | [] => 0
  | url :: rest =>
      source_saves env url t k +
      cycle_saves rest (source_table env url t k) (source_clock env url t k)
  end.

End CycleSummary.

(** ** Properties of tables and of the database *)

(** A database that accepts every read, respectively every write. *)
Definition reads_ok (env : Env) : Prop :=
  forall k, db_fault env k SelectVotes = None.

Definition writes_ok (env : Env) : Prop :=
  forall k n v, db_fault env k (UpsertVote n v) = None.

(** Votes a batch holds for one nickname. *)
Fixpoint total (n : string) (rows : list VoterRecord) : Z :=
  match rows with
  | [] => 0
  | vote :: rest =>
      (if decide (nickname vote = n) then votes vote else 0) + total n rest
  end.

(** No count of [t] is lost or lowered in [t']. *)
Definition grows (t t' : gmap string Z) : Prop :=
  forall n c, t !! n = Some c -> exists c', t' !! n = Some c' /\ c <= c'.

Definition nonneg (t : gmap string Z) : Prop :=
  forall n c, t !! n = Some c -> 0 <= c.

Definition nonneg_rows (rows : list VoterRecord) : Prop :=
  forall vote, vote ∈ rows -> 0 <= votes vote.

(** ** Example worlds *)

Local Open Scope string_scope.
Local Open Scope list_scope.

Definition example_http (url : string) : HttpOutcome :=
  if decide (url = "A") then
    HttpResponse true "OK" (BodyJson (JsonObject (Some [mkVote "x" 3])))
  else if decide (url = "B") then
    HttpResponse true "OK"
      (BodyJson (JsonObject (Some [mkVote "x" 2; mkVote "y" 1])))
  else if decide (url = "N") then
    HttpResponse true "OK" (BodyJson (JsonObject (Some [mkVote "x" (-2)])))
  else if decide (url = "status") then
    HttpResponse false "Service Unavailable" (BodyInvalid "unexpected token")
  else if decide (url = "shape") then
    HttpResponse true "OK" (BodyJson (JsonObject None))
  else FetchRejects "getaddrinfo ENOTFOUND".

Definition no_fault : nat -> Stmt -> option string := fun _ _ => None.

(** The database rejects [CREATE TABLE], and nothing else. *)
Definition create_fault : nat -> Stmt -> option string :=
  fun _ s => match s with CreateTable => Some "ECONNREFUSED" | _ => None end.

(** The database rejects the reads from the [k0]-th statement on. *)
Definition read_fault (k0 : nat) : nat -> Stmt -> option string :=
  fun k s =>
    match s with
    | SelectVotes => if (k0 <=? k)%nat then Some "ETIMEDOUT" else None
    | _ => None
    end.

(** The database rejects the first two statements. *)
Definition first_two_fault : nat -> Stmt -> option string :=
  fun k _ =>
    match k with
    | 0%nat => Some "row 0 rejected"
    | 1%nat => Some "row 1 rejected"
    | _ => None
    end.

Definition healthy_env : Env := mkEnv example_http no_fault.

Definition empty_world : World := mkWorld ∅ 0 [].

Definition world_with (t : gmap string Z) : World := mkWorld t 0 [].

(** The spec's wording of C8: every rejected row of a batch is reported on
    its own. *)
Definition reported_per_row (env : Env) (rows : list VoterRecord) (w : World)
  : Prop :=
  exists new,
    log (saveVotesToDatabase env rows w).2 = log w ++ new /\
    save_errors new = (rejected env (dbclock w) rows).*2.

(** The list a function returned (nothing, had it thrown). *)
Definition returned (r : Result (list VoterRecord)) : list VoterRecord :=
  match r with
  | Ret vs => vs
  | Throw _ => []
  end.

(** Every record the sources of a cycle answer with. *)
Definition fetched (env : Env) (urls : list string) : list VoterRecord :=
  flat_map (fun url => default [] (voters_of (http env url))) urls.

(** The spec's wording of C1: one read of the stored nicknames and one batch
    save per cycle, every fetched record being filtered against that one
    read. *)
Definition single_snapshot_cycle (env : Env) (urls : list string) (w : World)
  : Prop :=
  exists new,
    log (pollVotes env urls w).2 = log w ++ new /\
    count_reads new = 1%nat /\
    count_saves new = 1%nat /\
    (pollVotes env urls w).1 =
      Ret (novel env (table w) (dbclock w) (fetched env urls)).

(** The spec's wording of the example of C2: both records of [x] and the
    record of [y] are returned, and [x] is stored with 5. *)
Definition both_duplicates_pass (env : Env) (urls : list string) (w : World)
  : Prop :=
  let vs := returned (pollVotes env urls w).1 in
  mkVote "x" 3 ∈ vs /\ mkVote "x" 2 ∈ vs /\ mkVote "y" 1 ∈ vs /\
  table (pollVotes env urls w).2 !! "x" = Some 5.

(** The spec's wording of C5: no returned record has a nickname of the read
    made at the start of the cycle. *)
Definition dedup_against_start (env : Env) (urls : list string) (w : World)
  : Prop :=
  forall vote,
    vote ∈ returned (pollVotes env urls w).1 ->
    nickname vote ∉ snapshot env (table w) (dbclock w).

(** A source list without negative votes. *)
Definition positive_http (url : string) : HttpOutcome :=
  HttpResponse true "OK" (BodyJson (JsonObject (Some [mkVote url 1]))).

(** ** Further observers of the log, and further examples *)

Definition fetch_of (e : Event) : option string :=
  match e with EvFetch url => Some url | _ => None end.

(** The URLs requested, in order. *)
Definition fetched_urls (l : list Event) : list string := omap fetch_of l.

Definition stmt_of (e : Event) : option Stmt :=
  match e with EvQuery s => Some s | _ => None end.

(** The statements sent to the database, in order. *)
Definition statements (l : list Event) : list Stmt := omap stmt_of l.

Definition is_upsert (s : Stmt) : bool :=
  match s with UpsertVote _ _ => true | _ => false end.

(** The effects of [n] rejected attempts of [initializeDatabase], each
    followed by the pause, and of one more attempt. *)
Fixpoint retry_trace (n : nat) : list Event :=
  match n with
  | O => [EvQuery CreateTable]
  | S n' => EvQuery CreateTable :: EvSleep 5000 :: retry_trace n'
  end.

(** The database rejects the first [j] statements, whatever they are. *)
Definition first_fault (j : nat) : nat -> Stmt -> option string :=
  fun k _ => if (k <? j)%nat then Some "ECONNRESET" else None.

(** A source whose array names [x] twice. *)
Definition duplicate_http (url : string) : HttpOutcome :=
  HttpResponse true "OK"
    (BodyJson (JsonObject (Some [mkVote "x" 3; mkVote "y" 1; mkVote "x" 2]))).

(** Sources whose body is not a JSON object. *)
Definition broken_http (url : string) : HttpOutcome :=
  if decide (url = "null") then HttpResponse true "OK" (BodyJson JsonNull)
  else HttpResponse true "OK" (BodyInvalid "Unexpected token < in JSON").

(** The statements one call of [fetchVotesFromApi], and one cycle, send. *)
Definition source_statements (env : Env) (url : string) (t : gmap string Z)
  (k : nat) : list Stmt :=
  match voters_of (http env url) with
  | Some voters => SelectVotes :: map upsert_stmt (novel env t k voters)
  | None => []
  end.

Fixpoint cycle_statements (env : Env) (urls : list string) (t : gmap string Z)
  (k : nat) : list Stmt :=
  match urls with
  | [] => []
  | url :: rest =>
      source_statements env url t k ++
      cycle_statements env rest (source_table env url t k)
        (source_clock env url t k)
  end.

(** ** The configured sources (line 144) *)

(** [s.split(',')]: the pieces of [s] between the commas; one piece more than
    there are commas, so never an empty array. *)
Fixpoint split_comma (s : string) : list string :=
  match s with
  | EmptyString => [EmptyString]
  | String c rest =>
      if decide (c = ","%char) then EmptyString :: split_comma rest
      else
        match split_comma rest with
        | piece :: pieces => String c piece :: pieces
        | [] => [String c EmptyString]
        end
  end.

(** [const apiUrls = process.env.API_URLS.split(',')]; an unset variable is
    [undefined], and calling [split] on it throws. *)
Definition apiUrls (API_URLS : option string) : Result (list string) :=
  match API_URLS with
  | Some s => Ret (split_comma s)
  | None => Throw "Cannot read properties of undefined (reading 'split')"
  end.

(** [array.join(sep)] *)
Fixpoint join (sep : string) (l : list string) : string :=
  match l with
  | [] => EmptyString
  | [piece] => piece
  | piece :: rest => piece +:+ sep +:+ join sep rest
  end.

Fixpoint commas (s : string) : nat :=
  match s with
  | EmptyString => 0
  | String c rest => (if decide (c = ","%char) then 1 else 0) + commas rest
  end.

(** ** The Discord side (lines 139-212)

    The calls into discord.js are modelled by what the program sees of them:
    each is recorded in the trace, and resolves or rejects as the oracle
    [Discord] says. The trace also takes every event of the core functions
    the handlers run, in the order they happen. *)

Record Interaction := mkInteraction {
  isCommand : bool;
  commandName : option string
}.

Inductive BotLine :=
| LoggedIn (tag : string)
| ApiUrlsLine (urls : list string)
| GuildNotFound
| RegisteringCommand (guildName : string)
| CommandRegistered (guildName : string)
| RegisterError (msg : string)
| InteractionReceived (name : option string)
| NotACommand
| ProcessingVoting
| VotesSent (voteMessage : string)
| NoVotesToDisplay.

Inductive BotEvent :=
| Core (e : Event)
| BotLog (l : BotLine)
| BotError (l : BotLine)
| CommandsCreate (guildName command : string)
| DeferReply
| EditReply (content : string).

(** What Discord does during one handler: the guild found in the cache (its
    name), and the message each call is rejected with (if it is). *)
Record Discord := mkDiscord {
  guild : option string;
  register_fault : option string;
  defer_fault : option string;
  edit_fault : option string
}.

Record Bot := mkBot {
  world : World;
  trace : list BotEvent
}.

Definition B (A : Type) : Type := Bot -> Result A * Bot.

Definition retB {A} (a : A) : B A := fun b => (Ret a, b).

Definition bindB {A C} (m : B A) (k : A -> B C) : B C :=
  fun b =>
    match m b with
    | (Ret a, b1) => k a b1
    | (Throw msg, b1) => (Throw msg, b1)
    end.

Definition try_catchB {A} (m : B A) (handler : string -> B A) : B A :=
  fun b =>
    match m b with
    | (Ret a, b1) => (Ret a, b1)
    | (Throw msg, b1) => handler msg b1
    end.

Declare Scope bot_scope.
Delimit Scope bot_scope with bot.
Notation "x <- c1 ;; c2" := (bindB c1 (fun x => c2))
  (at level 100, c1 at next level, right associativity) : bot_scope.
Notation "c1 ;; c2" := (bindB c1 (fun _ => c2))
  (at level 100, right associativity) : bot_scope.

(** A console line of a handler. *)
Definition say (e : BotEvent) : B unit :=
  fun b => (Ret tt, mkBot (world b) (trace b ++ [e])).

(** An awaited call into discord.js. *)
Definition call (e : BotEvent) (fault : option string) : B unit :=
  fun b =>
    let b1 := mkBot (world b) (trace b ++ [e]) in
    match fault with
    | Some msg => (Throw msg, b1)
    | None => (Ret tt, b1)
    end.

(** The events a core function added to the log. *)
Definition new_events (w w1 : World) : list BotEvent :=
  Core <$> drop (length (log w)) (log w1).

(** An awaited call of a core function. *)
Definition core {A} (m : M A) : B A :=
  fun b =>
    let (r, w1) := m (world b) in
    (r, mkBot w1 (trace b ++ new_events (world b) w1)).

Definition newline : string := String "010"%char EmptyString.

(** [`User: ${vote.nickname} | Votes: ${vote.votes}`]. The votes are
    printed digit by digit, as JavaScript prints an integer up to
    [MAX_SAFE_INTEGER] in absolute value; beyond it a JavaScript number is
    rounded, and from 10^21 on printed with an exponent, which this
    definition does not follow. *)
Definition vote_line (vote : VoterRecord) : string :=
  "User: " +:+ nickname vote +:+ " | Votes: " +:+ pretty (votes vote).

(** The command the bot registers (lines 147-149). *)
Definition votesCommand : string := "voting".

(** [client.once('ready', ...)] (lines 152-174). [None] as for
    [initializeDatabase]. *)
Definition on_ready (env : Env) (dis : Discord) (tag : string)
  (urls : list string) : Bot -> option (Result unit * Bot) :=
  fun b =>
    let b1 :=
      mkBot (world b)
        (trace b ++ [BotLog (LoggedIn tag); BotLog (ApiUrlsLine urls)]) in
    match initializeDatabase env (world b1) with
    | None => None
    | Some (Throw msg, w1) =>
        Some (Throw msg, mkBot w1 (trace b1 ++ new_events (world b1) w1))
    | Some (Ret _, w1) =>
        let b2 := mkBot w1 (trace b1 ++ new_events (world b1) w1) in
        Some
          (match guild dis with
           | None => say (BotError GuildNotFound) b2
           | Some name =>
               try_catchB
                 (say (BotLog (RegisteringCommand name)) ;;
                  call (CommandsCreate name votesCommand) (register_fault dis) ;;
                  say (BotLog (CommandRegistered name)))%bot
                 (fun err => say (BotError (RegisterError err)))
                 b2
           end)
    end.

(** [client.on('interactionCreate', ...)] (lines 177-209). *)
Definition on_interactionCreate (env : Env) (dis : Discord)
  (urls : list string) (interaction : Interaction) : B unit :=
  (say (BotLog (InteractionReceived (commandName interaction))) ;;
   if negb (isCommand interaction) then say (BotLog NotACommand)
   else if decide (commandName interaction = Some "voting") then
     say (BotLog ProcessingVoting) ;;
     call DeferReply (defer_fault dis) ;;
     newVotes <- core (pollVotes env urls) ;;
     if (0 <? length newVotes)%nat then
       let voteMessage := join newline (map vote_line newVotes) in
       call (EditReply ("Here are the latest votes:" +:+ newline +:+ voteMessage))
            (edit_fault dis) ;;
       say (BotLog (VotesSent voteMessage))
     else
       call (EditReply "No new votes found.") (edit_fault dis) ;;
       say (BotLog NoVotesToDisplay)
   else retB tt)%bot.

(** Observers of the trace. *)
Definition core_of (e : BotEvent) : option Event :=
  match e with Core c => Some c | _ => None end.

Definition core_events (l : list BotEvent) : list Event := omap core_of l.

Definition reply_of (e : BotEvent) : option string :=
  match e with EditReply content => Some content | _ => None end.

(** The replies edited in, in order. *)
Definition replies (l : list BotEvent) : list string := omap reply_of l.

Definition is_defer (e : BotEvent) : bool :=
  match e with DeferReply => true | _ => false end.

Definition registered_of (e : BotEvent) : option string :=
  match e with CommandsCreate _ command => Some command | _ => None end.

(** The commands the bot asked Discord to create. *)
Definition registrations (l : list BotEvent) : list string :=
  omap registered_of l.

Definition quiet_discord : Discord := mkDiscord (Some "guild") None None None.

(** The console lines of a log. *)
Definition is_console (e : Event) : bool := negb (is_effect e).

(** What a cycle does to the outside, in order: for each source the request,
    then, if the answer is usable, the read of the stored votes and the
    upserts of the records kept; then the next source. *)
Fixpoint cycle_effects (env : Env) (urls : list string) (t : gmap string Z)
  (k : nat) : list Event :=
  match urls with
  | [] => []
  | url :: rest =>
      EvFetch url :: map EvQuery (source_statements env url t k) ++
      cycle_effects env rest (source_table env url t k)
        (source_clock env url t k)
  end.


(** [Number.MAX_SAFE_INTEGER]: up to it, in absolute value, an integer is a
    JavaScript number of its own, and is printed digit by digit. *)
Definition MAX_SAFE_INTEGER : Z := 9007199254740991.

(** ** Basic facts *)

Lemma count_app p l1 l2 : count p (l1 ++ l2) = (count p l1 + count p l2)%nat.
Proof. unfold count. by rewrite List.filter_app, length_app. Qed.

Lemma count_cons p e l :
  count p (e :: l) = ((if p e then 1 else 0) + count p l)%nat.
Proof. unfold count. simpl. by destruct (p e). Qed.

Lemma count_nil p : count p [] = 0%nat.
Proof. done. Qed.

Ltac count_events :=
  repeat first [rewrite count_app | rewrite count_cons | rewrite count_nil];
  cbn [is_read is_save_outcome is_effect upsert_stmt].

Lemma count_upserts p (rows : list VoterRecord) :
  (forall s, p (EvQuery (upsert_stmt s)) = false) ->
  count p (map (fun vote => EvQuery (upsert_stmt vote)) rows) = 0%nat.
Proof.
  intros Hp. unfold count.
  induction rows as [|vote rows IH]; simpl; [done|]. by rewrite Hp.
Qed.

Lemma lookup_upsert_eq n v t :
  upsert n v t !! n = Some (default 0 (t !! n) + v).
Proof.
  unfold upsert. destruct (t !! n) as [c|] eqn:E; simpl;
    by rewrite lookup_insert_eq.
Qed.

Lemma lookup_upsert_ne n m v t : n ≠ m -> upsert n v t !! m = t !! m.
Proof.
  intros Hne. unfold upsert. destruct (t !! n); by rewrite lookup_insert_ne.
Qed.

Lemma dom_upsert n v t : dom (upsert n v t) = {[n]} ∪ dom t.
Proof. unfold upsert. destruct (t !! n); by rewrite dom_insert_L. Qed.

Lemma elem_of_snapshot_rows n (t : gmap string Z) :
  n ∈ map nickname (rows_of t) <-> n ∈ dom t.
Proof.
  unfold rows_of. rewrite elem_of_dom. split.
  - intros H. apply list_elem_of_fmap in H as [r [-> H]].
    apply list_elem_of_fmap in H as [[m c] [-> H]]. simpl.
    apply elem_of_map_to_list in H. eauto.
  - intros [c H]. apply list_elem_of_fmap. exists (mkVote n c). split; [done|].
    apply list_elem_of_fmap. exists (n, c). split; [done|].
    by apply elem_of_map_to_list.
Qed.

Section Runs.

Context (env : Env).

Lemma write_rows_accepted k rows t :
  write_rows env k rows t = foldl upsert_row t (accepted env k rows).
Proof.
  revert k t. induction rows as [|vote rows IH]; intros k t; simpl; [done|].
  rewrite IH. by destruct (db_fault env k (upsert_stmt vote)).
Qed.

Lemma all_settled_row_results k rows :
  all_settled (row_results env k rows) =
  match rejected env k rows with
  | [] => Ret (map (fun _ => []) rows)
  | (_, msg) :: _ => Throw msg
  end.
Proof.
  revert k. induction rows as [|vote rows IH]; intros k; simpl; [done|].
  destruct (db_fault env k (upsert_stmt vote)); [done|].
  rewrite IH. by destruct (rejected env (S k) rows) as [|[? ?] ?].
Qed.

Lemma settle_all_upserts rows w :
  settle_all (map (fun vote => db_query env (UpsertVote (nickname vote) (votes vote))) rows) w =
  (row_results env (dbclock w) rows,
   mkWorld (write_rows env (dbclock w) rows (table w))
           (dbclock w + length rows)
           (log w ++ map (fun vote => EvQuery (upsert_stmt vote)) rows)).
Proof.
  revert w. induction rows as [|vote rows IH]; intros w; simpl.
  - destruct w; simpl. by rewrite Nat.add_0_r, app_nil_r.
  - unfold db_query at 1. fold (upsert_stmt vote).
    destruct (db_fault env (dbclock w) (upsert_stmt vote)) eqn:E;
      rewrite IH; simpl; rewrite <- app_assoc; simpl;
      by rewrite Nat.add_succ_r.
Qed.

(** [saveVotesToDatabase] always returns normally; it sends one statement
    per row, applies the accepted ones, and writes one closing line. *)
Lemma saveVotesToDatabase_run rows w :
  saveVotesToDatabase env rows w =
  (Ret tt,
   mkWorld (write_rows env (dbclock w) rows (table w))
           (dbclock w + length rows)
           (log w ++ map (fun vote => EvQuery (upsert_stmt vote)) rows
                  ++ [save_outcome env (dbclock w) rows])).
Proof.
  unfold saveVotesToDatabase, try_catch, bind, Promise_all, console_log,
    console_error, emit.
  rewrite settle_all_upserts, all_settled_row_results. unfold save_outcome.
  destruct (rejected env (dbclock w) rows) as [|[? msg] ?]; simpl;
    by rewrite <- app_assoc.
Qed.

(** [getStoredVotes] always returns normally, with the rows of the table or,
    when the statement is rejected, with no rows. *)
Lemma getStoredVotes_run w :
  exists line,
    getStoredVotes env w =
    (Ret (match db_fault env (dbclock w) SelectVotes with
          | Some _ => []
          | None => rows_of (table w)
          end),
     mkWorld (table w) (S (dbclock w)) (log w ++ [EvQuery SelectVotes; line]))
    /\ is_read line = false /\ is_save_outcome line = false.
Proof.
  unfold getStoredVotes, try_catch, bind, db_query, console_log,
    console_error, emit, ret.
  destruct (db_fault env (dbclock w) SelectVotes) as [msg|]; simpl.
  - exists (EvError (StoredVotesError msg)). by rewrite <- app_assoc.
  - exists (EvLog (StoredVotesRetrieved (rows_of (table w)))).
    by rewrite <- app_assoc.
Qed.

End Runs.

(** ** One source *)

Section Source.

Context (env : Env).

Lemma fetchVotesFromApi_run url w :
  exists new,
    fetchVotesFromApi env url w =
    (Ret (source_novel env url (table w) (dbclock w)),
     mkWorld (source_table env url (table w) (dbclock w))
             (source_clock env url (table w) (dbclock w))
             (log w ++ new))
    /\ count_reads new = source_reads env url
    /\ count_saves new = source_saves env url (table w) (dbclock w).
Proof.
  unfold source_saves, source_novel, source_table, source_clock, source_reads.
  unfold fetchVotesFromApi, bind, try_catch, fetch, console_log,
    console_error, emit, ret.
  simpl.
  destruct (http env url) as [msg|[] statusText [msg|[|[voters|]]]]; simpl;
    try (eexists; split; [by rewrite <- !app_assoc | by split]).
  destruct (getStoredVotes_run env
              (mkWorld (table w) (dbclock w)
                 (((log w ++ [EvLog (FetchingFrom url)]) ++ [EvFetch url]) ++
                  [EvLog (ApiResponse (JsonObject (Some voters)))])))
    as (line & Hrun & Hr & Hs).
  simpl in Hrun. rewrite Hrun. clear Hrun. simpl.
  replace (map nickname
             match db_fault env (dbclock w) SelectVotes with
             | Some _ => []
             | None => rows_of (table w)
             end)
    with (snapshot env (table w) (dbclock w))
    by (unfold snapshot; by destruct (db_fault env (dbclock w) SelectVotes)).
  fold (novel env (table w) (dbclock w) voters).
  destruct (novel env (table w) (dbclock w) voters) as [|vote rest] eqn:En;
    simpl.
  - eexists. split.
    { rewrite <- !app_assoc.
      f_equal; try (f_equal; first [lia | reflexivity]). }
    unfold count_reads, count_saves. count_events. by rewrite Hr, Hs.
  - rewrite saveVotesToDatabase_run. simpl.
    eexists. split.
    { rewrite <- !app_assoc.
      f_equal; try (f_equal; first [lia | reflexivity]). }
    unfold count_reads, count_saves. count_events.
    rewrite !(count_upserts _ rest) by done. rewrite Hr, Hs.
    unfold save_outcome.
    by destruct (rejected env (S (dbclock w)) (vote :: rest)) as [|[? ?] ?].
Qed.

End Source.

(** ** One cycle *)

Section Cycle.

Context (env : Env).

Lemma pollVotes_loop_run urls : forall acc w,
  exists new,
    pollVotes_loop env urls acc w =
    (Ret (acc ++ cycle_novel env urls (table w) (dbclock w)),
     mkWorld (cycle_table env urls (table w) (dbclock w))
             (cycle_clock env urls (table w) (dbclock w))
             (log w ++ new))
    /\ count_reads new = cycle_reads env urls
    /\ count_saves new = cycle_saves env urls (table w) (dbclock w).
Proof.
  induction urls as [|url rest IH]; intros acc w.
  - exists []. simpl. unfold ret. rewrite !app_nil_r. by destruct w.
  - cbn [pollVotes_loop]. unfold bind at 1. unfold try_catch, bind at 1.
    unfold console_log at 1. unfold emit. cbn [fst snd].
    unfold bind at 1.
    destruct (fetchVotesFromApi_run env url
                (mkWorld (table w) (dbclock w) (log w ++ [EvLog (PollingApi url)])))
      as (new1 & Hrun & Hr1 & Hs1).
    cbn [table dbclock log] in Hrun, Hs1. rewrite Hrun. unfold ret.
    destruct (IH (acc ++ source_novel env url (table w) (dbclock w))
                (mkWorld (source_table env url (table w) (dbclock w))
                   (source_clock env url (table w) (dbclock w))
                   ((log w ++ [EvLog (PollingApi url)]) ++ new1)))
      as (new2 & Hloop & Hr2 & Hs2).
    cbn [table dbclock log] in Hloop, Hs2. rewrite Hloop.
    exists ([EvLog (PollingApi url)] ++ new1 ++ new2).
    split; [by rewrite <- !app_assoc |].
    unfold count_reads, count_saves in *. cbn [cycle_reads cycle_saves].
    rewrite !count_app, Hr1, Hr2, Hs1, Hs2. by count_events.
Qed.

Lemma pollVotes_run urls w :
  exists new,
    pollVotes env urls w =
    (Ret (cycle_novel env urls (table w) (dbclock w)),
     mkWorld (cycle_table env urls (table w) (dbclock w))
             (cycle_clock env urls (table w) (dbclock w))
             (log w ++ new))
    /\ count_reads new = cycle_reads env urls
    /\ count_saves new = cycle_saves env urls (table w) (dbclock w).
Proof.
  unfold pollVotes, bind.
  destruct (pollVotes_loop_run urls [] w) as (new & Hrun & Hr & Hs).
  rewrite Hrun. unfold console_log, emit, ret. cbn [table dbclock log app].
  eexists. split; [by rewrite <- !app_assoc |].
  unfold count_reads, count_saves in *. rewrite !count_app, Hr, Hs.
  by count_events.
Qed.

Lemma cycle_novel_app us1 us2 t k :
  cycle_novel env (us1 ++ us2) t k =
  cycle_novel env us1 t k ++
  cycle_novel env us2 (cycle_table env us1 t k) (cycle_clock env us1 t k).
Proof.
  revert t k. induction us1 as [|u us1 IH]; intros t k; simpl; [done|].
  by rewrite IH, app_assoc.
Qed.


Lemma cycle_clock_app us1 us2 t k :
  cycle_clock env (us1 ++ us2) t k =
  cycle_clock env us2 (cycle_table env us1 t k) (cycle_clock env us1 t k).
Proof.
  revert t k. induction us1 as [|u us1 IH]; intros t k; simpl; [done|].
  by rewrite IH.
Qed.

End Cycle.

(** ** Invariants of the table *)

Lemma grows_refl t : grows t t.
Proof. intros n c H. exists c. split; [done | lia]. Qed.

Lemma grows_trans t1 t2 t3 : grows t1 t2 -> grows t2 t3 -> grows t1 t3.
Proof.
  intros H12 H23 n c H. destruct (H12 n c H) as (c2 & H2 & Hle2).
  destruct (H23 n c2 H2) as (c3 & H3 & Hle3). exists c3. split; [done | lia].
Qed.

Lemma grows_upsert n v t : 0 <= v -> grows t (upsert n v t).
Proof.
  intros Hv m c H. destruct (decide (n = m)) as [->|Hne].
  - rewrite lookup_upsert_eq, H. simpl. exists (c + v). split; [done | lia].
  - rewrite lookup_upsert_ne by done. exists c. split; [done | lia].
Qed.

Lemma nonneg_upsert n v t : 0 <= v -> nonneg t -> nonneg (upsert n v t).
Proof.
  intros Hv Ht m c. destruct (decide (n = m)) as [->|Hne].
  - rewrite lookup_upsert_eq. intros [= <-].
    destruct (t !! m) as [c0|] eqn:E; simpl; [|lia].
    specialize (Ht m c0 E). lia.
  - rewrite lookup_upsert_ne by done. apply Ht.
Qed.

Lemma lookup_foldl_upsert_Some rows : forall t n c,
  t !! n = Some c ->
  foldl upsert_row t rows !! n = Some (c + total n rows).
Proof.
  induction rows as [|vote rows IH]; intros t n c H; simpl.
  - rewrite H. f_equal; lia.
  - unfold upsert_row at 2. case_decide as E.
    + subst n. erewrite IH; [|by rewrite lookup_upsert_eq, H].
      simpl. f_equal; lia.
    + erewrite IH; [|by rewrite lookup_upsert_ne]. f_equal; lia.
Qed.

Lemma lookup_foldl_upsert_None rows : forall t n,
  t !! n = None -> n ∈ map nickname rows ->
  foldl upsert_row t rows !! n = Some (total n rows).
Proof.
  induction rows as [|vote rows IH]; intros t n H Hin; simpl.
  - by apply elem_of_nil in Hin.
  - unfold upsert_row at 2. case_decide as E.
    + subst n. erewrite lookup_foldl_upsert_Some;
        [|by rewrite lookup_upsert_eq, H]. done.
    + simpl in Hin. apply elem_of_cons in Hin as [Hin|Hin]; [congruence|].
      rewrite IH; [f_equal; lia | by rewrite lookup_upsert_ne | done].
Qed.

Section Invariants.

Context (env : Env).

Lemma accepted_all k rows : writes_ok env -> accepted env k rows = rows.
Proof.
  intros Hw. revert k. induction rows as [|vote rows IH]; intros k; simpl;
    [done|].
  unfold upsert_stmt. by rewrite Hw, IH.
Qed.

Lemma dom_write_rows_mono k rows t : dom t ⊆ dom (write_rows env k rows t).
Proof.
  revert k t. induction rows as [|vote rows IH]; intros k t; simpl; [done|].
  etrans; [|apply IH].
  destruct (db_fault env k (upsert_stmt vote)); [done|].
  unfold upsert_row. rewrite dom_upsert. apply union_subseteq_r.
Qed.

Lemma dom_write_rows_ok k rows t :
  writes_ok env ->
  dom (write_rows env k rows t) = dom t ∪ list_to_set (map nickname rows).
Proof.
  intros Hw. revert k t.
  induction rows as [|vote rows IH]; intros k t; simpl.
  { by rewrite (right_id_L ∅ (∪)). }
  unfold upsert_stmt. rewrite Hw, IH. unfold upsert_row. rewrite dom_upsert.
  by rewrite (comm_L (∪) {[nickname vote]} (dom t)), (assoc_L (∪)).
Qed.


Lemma snapshot_ok t k n : reads_ok env -> n ∈ snapshot env t k <-> n ∈ dom t.
Proof.
  intros Hr. unfold snapshot. rewrite Hr. apply elem_of_snapshot_rows.
Qed.

Lemma elem_of_novel t k voters vote :
  vote ∈ novel env t k voters <->
  (nickname vote ∉ snapshot env t k) /\ vote ∈ voters.
Proof.
  unfold novel.
  apply (list_elem_of_filter (fun vote => nickname vote ∉ snapshot env t k)).
Qed.

Lemma novel_subseteq t k voters : novel env t k voters ⊆ voters.
Proof. intros vote H. by apply elem_of_novel in H as [_ H]. Qed.

Lemma dom_source_table_mono url t k : dom t ⊆ dom (source_table env url t k).
Proof.
  unfold source_table. destruct (voters_of (http env url)); [|done].
  apply dom_write_rows_mono.
Qed.

Lemma dom_cycle_table_mono urls t k : dom t ⊆ dom (cycle_table env urls t k).
Proof.
  revert t k. induction urls as [|url rest IH]; intros t k; simpl; [done|].
  etrans; [apply (dom_source_table_mono url t k) | apply IH].
Qed.

(** With a database that accepts everything, the nicknames stored after a
    source are those stored before and those the source returned. *)
Lemma dom_source_table_ok url t k :
  writes_ok env ->
  dom (source_table env url t k) =
  dom t ∪ list_to_set (map nickname (source_novel env url t k)).
Proof.
  intros Hw. unfold source_table, source_novel.
  destruct (voters_of (http env url)).
  - by apply dom_write_rows_ok.
  - simpl. by rewrite (right_id_L ∅ (∪)).
Qed.

Lemma dom_cycle_table_ok urls t k :
  writes_ok env ->
  dom (cycle_table env urls t k) =
  dom t ∪ list_to_set (map nickname (cycle_novel env urls t k)).
Proof.
  intros Hw. revert t k.
  induction urls as [|url rest IH]; intros t k; simpl.
  { by rewrite (right_id_L ∅ (∪)). }
  rewrite IH, dom_source_table_ok, map_app, list_to_set_app_L by done.
  by rewrite (assoc_L (∪)).
Qed.

(** With a database that accepts everything, every nickname a source
    reported is stored once the source has been handled. *)
Lemma source_nicknames_stored url voters t k vote :
  reads_ok env -> writes_ok env ->
  voters_of (http env url) = Some voters -> vote ∈ voters ->
  nickname vote ∈ dom (source_table env url t k).
Proof.
  intros Hr Hw Hv Hin. rewrite dom_source_table_ok by done.
  unfold source_novel. rewrite Hv.
  destruct (decide (nickname vote ∈ dom t)) as [Hd|Hd];
    [by apply elem_of_union_l|].
  apply elem_of_union_r, elem_of_list_to_set, list_elem_of_fmap.
  exists vote. split; [done|]. apply elem_of_novel. split; [|done].
  by rewrite snapshot_ok.
Qed.

Lemma cycle_nicknames_stored urls : forall t k url voters vote,
  reads_ok env -> writes_ok env ->
  url ∈ urls -> voters_of (http env url) = Some voters -> vote ∈ voters ->
  nickname vote ∈ dom (cycle_table env urls t k).
Proof.
  induction urls as [|u rest IH]; intros t k url voters vote Hr Hw Hu Hv Hin.
  - by apply elem_of_nil in Hu.
  - simpl. apply elem_of_cons in Hu as [->|Hu].
    + apply dom_cycle_table_mono. by eapply source_nicknames_stored.
    + by eapply IH.
Qed.

End Invariants.

(** ** Further facts about the functions *)

(** One failed attempt of [initializeDatabase]. *)
Lemma initializeDatabase_loop_fail env fuel retries w msg :
  (retries < maxRetries)%nat ->
  db_fault env (dbclock w) CreateTable = Some msg ->
  initializeDatabase_loop env (S fuel) retries w =
  initializeDatabase_loop env fuel (S retries)
    (mkWorld (table w) (S (dbclock w))
       (log w ++
        [EvQuery CreateTable; EvError (InitError (S retries) msg);
         EvError InitStack] ++
        (if (maxRetries <=? S retries)%nat
         then [EvError MaxRetriesReached]
         else [EvLog Retrying; EvSleep 5000]))).
Proof.
  intros Hlt Hfault. cbn [initializeDatabase_loop].
  apply Nat.ltb_lt in Hlt. rewrite Hlt.
  unfold db_query. rewrite Hfault.
  unfold bind, console_error, console_log, sleep, emit.
  cbn [table dbclock log].
  destruct (maxRetries <=? S retries)%nat; cbn [table dbclock log];
    by rewrite <- !app_assoc.
Qed.

Lemma initializeDatabase_loop_success env fuel retries w :
  (retries < maxRetries)%nat ->
  db_fault env (dbclock w) CreateTable = None ->
  initializeDatabase_loop env (S fuel) retries w =
  Some (Ret tt,
        mkWorld (table w) (S (dbclock w))
          (log w ++ [EvQuery CreateTable; EvLog TableInitialized])).
Proof.
  intros Hlt Hfault. cbn [initializeDatabase_loop].
  apply Nat.ltb_lt in Hlt. rewrite Hlt.
  unfold db_query. rewrite Hfault.
  unfold console_log, emit. cbn [table dbclock log apply_stmt].
  by rewrite <- !app_assoc.
Qed.

Lemma initializeDatabase_loop_exit env fuel retries w :
  (maxRetries <= retries)%nat ->
  initializeDatabase_loop env (S fuel) retries w = Some (Ret tt, w).
Proof.
  intros Hle. cbn [initializeDatabase_loop].
  apply Nat.ltb_ge in Hle. by rewrite Hle.
Qed.

(** The loop never needs more iterations than retries are left, whatever the
    database does; it returns normally and leaves the table alone. *)
Lemma initializeDatabase_loop_returns env fuel : forall retries w,
  (maxRetries - retries < fuel)%nat ->
  exists w',
    initializeDatabase_loop env fuel retries w = Some (Ret tt, w') /\
    table w' = table w.
Proof.
  induction fuel as [|fuel IH]; intros retries w Hfuel; [lia|].
  destruct (decide (retries < maxRetries)%nat) as [Hlt|Hge].
  - destruct (db_fault env (dbclock w) CreateTable) as [msg|] eqn:E.
    + rewrite (initializeDatabase_loop_fail _ _ _ _ msg) by done.
      edestruct (IH (S retries)) as (w' & -> & Ht); [lia|].
      by exists w'.
    + rewrite initializeDatabase_loop_success by done. by eexists.
  - rewrite initializeDatabase_loop_exit by lia. by eexists.
Qed.

Lemma initializeDatabase_returns env w :
  exists w',
    initializeDatabase env w = Some (Ret tt, w') /\ table w' = table w.
Proof. apply initializeDatabase_loop_returns. lia. Qed.

Lemma failure_kind_no_voters o kind :
  failure_kind o = Some kind -> voters_of o = None.
Proof. by destruct o as [msg|[] statusText [msg|[|[voters|]]]]. Qed.

Lemma fetchVotesFromApi_returns env url w :
  (fetchVotesFromApi env url w).1 =
  Ret (source_novel env url (table w) (dbclock w)).
Proof. destruct (fetchVotesFromApi_run env url w) as (new & -> & _). done. Qed.

Lemma pollVotes_returns env urls w :
  (pollVotes env urls w).1 = Ret (cycle_novel env urls (table w) (dbclock w)).
Proof. destruct (pollVotes_run env urls w) as (new & -> & _). done. Qed.

Lemma pollVotes_table env urls w :
  table (pollVotes env urls w).2 = cycle_table env urls (table w) (dbclock w).
Proof. destruct (pollVotes_run env urls w) as (new & -> & _). done. Qed.

Lemma save_errors_app l1 l2 :
  save_errors (l1 ++ l2) = save_errors l1 ++ save_errors l2.
Proof. unfold save_errors. apply omap_app. Qed.

Lemma save_errors_upserts (rows : list VoterRecord) :
  save_errors (map (fun vote => EvQuery (upsert_stmt vote)) rows) = [].
Proof. induction rows as [|vote rows IH]; [done | by simpl]. Qed.

Lemma novel_read_rejected env t k voters msg :
  db_fault env k SelectVotes = Some msg -> novel env t k voters = voters.
Proof.
  intros Hread. unfold novel, snapshot. rewrite Hread.
  induction voters as [|vote voters IH]; [done|].
  rewrite filter_cons_True by apply not_elem_of_nil.
  by rewrite IH.
Qed.

Lemma cycle_reads_length env urls :
  cycle_reads env urls =
  length (filter (fun url => is_Some (voters_of (http env url))) urls).
Proof.
  induction urls as [|url rest IH]; [done|].
  cbn [cycle_reads]. unfold source_reads. rewrite IH.
  destruct (voters_of (http env url)) as [voters|] eqn:E.
  - rewrite filter_cons_True by (rewrite E; eauto). done.
  - rewrite filter_cons_False by (rewrite E; by intros [? ?]). done.
Qed.

Lemma cycle_saves_le_reads env urls : forall t k,
  (cycle_saves env urls t k <= cycle_reads env urls)%nat.
Proof.
  induction urls as [|url rest IH]; intros t k; [done|].
  cbn [cycle_saves cycle_reads].
  specialize (IH (source_table env url t k) (source_clock env url t k)).
  unfold source_saves, source_novel, source_reads in *.
  destruct (voters_of (http env url)) as [voters|]; [|lia].
  destruct (novel env t k voters); lia.
Qed.

Lemma healthy_reads_ok : reads_ok healthy_env.
Proof. by intros k. Qed.

Lemma healthy_writes_ok : writes_ok healthy_env.
Proof. by intros k n v. Qed.

Lemma cycle_novel_fresh env urls : forall t k vote,
  reads_ok env ->
  vote ∈ cycle_novel env urls t k -> nickname vote ∉ dom t.
Proof.
  induction urls as [|url rest IH]; intros t k vote Hr Hin.
  - by apply elem_of_nil in Hin.
  - cbn [cycle_novel] in Hin. apply elem_of_app in Hin as [Hin|Hin].
    + unfold source_novel in Hin.
      destruct (voters_of (http env url)) as [voters|];
        [|by apply elem_of_nil in Hin].
      apply elem_of_novel in Hin as [Hfresh _].
      by rewrite snapshot_ok in Hfresh.
    + apply IH in Hin; [|done]. intros Hd. apply Hin.
      by apply dom_source_table_mono.
Qed.


Lemma write_rows_grows env rows : forall k t,
  nonneg_rows rows -> nonneg t ->
  nonneg (write_rows env k rows t) /\ grows t (write_rows env k rows t).
Proof.
  induction rows as [|vote rows IH]; intros k t Hrows Ht; cbn [write_rows].
  - split; [done | apply grows_refl].
  - assert (Hvote : 0 <= votes vote) by apply Hrows, list_elem_of_here.
    assert (Hrest : nonneg_rows rows)
      by (intros v Hv; by apply Hrows, list_elem_of_further).
    destruct (db_fault env k (upsert_stmt vote)); [by apply IH|].
    destruct (IH (S k) (upsert_row t vote) Hrest) as [Hnn Hgr].
    { by apply nonneg_upsert. }
    split; [done|]. eapply grows_trans; [|exact Hgr].
    by apply grows_upsert.
Qed.

Lemma source_table_grows env url t k :
  (forall voters, voters_of (http env url) = Some voters -> nonneg_rows voters) ->
  nonneg t ->
  nonneg (source_table env url t k) /\ grows t (source_table env url t k).
Proof.
  intros Hvotes Ht. unfold source_table.
  destruct (voters_of (http env url)) as [voters|];
    [|split; [done | apply grows_refl]].
  apply write_rows_grows; [|done].
  intros vote Hin. apply (Hvotes voters); [done|].
  by apply (novel_subseteq env t k voters).
Qed.

Lemma cycle_table_grows env urls : forall t k,
  (forall url voters,
     voters_of (http env url) = Some voters -> nonneg_rows voters) ->
  nonneg t ->
  nonneg (cycle_table env urls t k) /\ grows t (cycle_table env urls t k).
Proof.
  induction urls as [|url rest IH]; intros t k Hvotes Ht; cbn [cycle_table].
  - split; [done | apply grows_refl].
  - destruct (source_table_grows env url t k (Hvotes url) Ht) as [Hnn Hgr].
    destruct (IH (source_table env url t k) (source_clock env url t k)
                Hvotes Hnn) as [Hnn' Hgr'].
    split; [done|]. by eapply grows_trans.
Qed.

Lemma console_upserts (rows : list VoterRecord) :
  List.filter is_console (map (fun vote => EvQuery (upsert_stmt vote)) rows) = [].
Proof. induction rows as [|vote rows IH]; [done | by simpl]. Qed.

Lemma effects_upserts (rows : list VoterRecord) :
  List.filter is_effect (map (fun vote => EvQuery (upsert_stmt vote)) rows) =
  map EvQuery (map upsert_stmt rows).
Proof. induction rows as [|vote rows IH]; [done|]. simpl. by f_equal. Qed.

(** ** Further properties of the code *)

(** *** The store after a source and after a cycle *)

Lemma novel_nil_of_known env t k voters :
  reads_ok env ->
  (forall vote, vote ∈ voters -> nickname vote ∈ dom t) ->
  novel env t k voters = [].
Proof.
  intros Hr Hknown. destruct (novel env t k voters) as [|vote rest] eqn:E;
    [done|].
  assert (Hin : vote ∈ novel env t k voters) by (rewrite E; apply list_elem_of_here).
  apply elem_of_novel in Hin as [Hfresh Hin]. exfalso. apply Hfresh.
  apply snapshot_ok; [done|]. by apply Hknown.
Qed.

Lemma cycle_all_known env urls : forall t k,
  reads_ok env ->
  (forall url voters vote,
     url ∈ urls -> voters_of (http env url) = Some voters -> vote ∈ voters ->
     nickname vote ∈ dom t) ->
  cycle_novel env urls t k = [] /\ cycle_table env urls t k = t.
Proof.
  induction urls as [|url rest IH]; intros t k Hr Hknown; [done|].
  cbn [cycle_novel cycle_table]. unfold source_novel, source_table, source_clock.
  destruct (voters_of (http env url)) as [voters|] eqn:E.
  - rewrite (novel_nil_of_known env t k voters Hr)
      by (intros vote Hin; eapply Hknown; [apply list_elem_of_here|done..]).
    cbn [write_rows app]. apply IH; [done|].
    intros u vs vote Hu. apply Hknown. by apply list_elem_of_further.
  - cbn [app]. apply IH; [done|].
    intros u vs vote Hu. apply Hknown. by apply list_elem_of_further.
Qed.

Lemma write_rows_frame env rows : forall k t n,
  n ∉ map nickname rows -> write_rows env k rows t !! n = t !! n.
Proof.
  induction rows as [|vote rows IH]; intros k t n Hn; cbn [write_rows]; [done|].
  cbn [map] in Hn. apply not_elem_of_cons in Hn as [Hne Hn].
  rewrite IH by done.
  destruct (db_fault env k (upsert_stmt vote)); [done|].
  unfold upsert_row. by apply lookup_upsert_ne.
Qed.

Lemma cycle_table_frame env urls : forall t k n,
  n ∉ map nickname (cycle_novel env urls t k) ->
  cycle_table env urls t k !! n = t !! n.
Proof.
  induction urls as [|url rest IH]; intros t k n Hn; [done|].
  cbn [cycle_novel cycle_table] in *. rewrite map_app in Hn.
  apply not_elem_of_app in Hn as [Hn1 Hn2]. rewrite IH by done.
  unfold source_table, source_novel in *.
  destruct (voters_of (http env url)); [|done]. by apply write_rows_frame.
Qed.

Lemma cycle_table_foldl env urls : forall t k,
  writes_ok env ->
  cycle_table env urls t k = foldl upsert_row t (cycle_novel env urls t k).
Proof.
  induction urls as [|url rest IH]; intros t k Hw; [done|].
  cbn [cycle_novel cycle_table]. rewrite foldl_app, IH by done. f_equal.
  unfold source_table, source_novel.
  destruct (voters_of (http env url)); [|done].
  by rewrite write_rows_accepted, accepted_all.
Qed.

Lemma upsert_row_comm t v1 v2 :
  upsert_row (upsert_row t v1) v2 = upsert_row (upsert_row t v2) v1.
Proof.
  apply map_eq. intros n. unfold upsert_row.
  destruct (decide (nickname v1 = n)) as [E1|E1];
    destruct (decide (nickname v2 = n)) as [E2|E2].
  - rewrite <- E1 in *. rewrite E2. rewrite !lookup_upsert_eq. simpl.
    f_equal. lia.
  - rewrite <- E1.
    rewrite (lookup_upsert_ne (nickname v2)), !lookup_upsert_eq by congruence.
    by rewrite (lookup_upsert_ne (nickname v2)) by congruence.
  - rewrite <- E2.
    rewrite (lookup_upsert_ne (nickname v1)), !lookup_upsert_eq by congruence.
    by rewrite (lookup_upsert_ne (nickname v1)) by congruence.
  - by rewrite !lookup_upsert_ne by done.
Qed.

Lemma foldl_upsert_row_perm rows rows' :
  rows ≡ₚ rows' ->
  forall t, foldl upsert_row t rows = foldl upsert_row t rows'.
Proof.
  induction 1 as [|x l1 l2 _ IH|x y l|l1 l2 l3 _ IH1 _ IH2]; intros t; simpl.
  - done.
  - apply IH.
  - by rewrite upsert_row_comm.
  - by rewrite IH1.
Qed.

Lemma pollVotes_clock env urls w :
  dbclock (pollVotes env urls w).2 = cycle_clock env urls (table w) (dbclock w).
Proof. destruct (pollVotes_run env urls w) as (new & -> & _). done. Qed.

Lemma fetchVotesFromApi_table env url w :
  table (fetchVotesFromApi env url w).2 =
  source_table env url (table w) (dbclock w).
Proof. destruct (fetchVotesFromApi_run env url w) as (new & -> & _). done. Qed.

Lemma total_novel env t k voters n :
  n ∉ snapshot env t k -> total n (novel env t k voters) = total n voters.
Proof.
  intros Hn. unfold novel.
  induction voters as [|vote voters IH]; [done|].
  destruct (decide (nickname vote ∈ snapshot env t k)) as [Hk|Hk].
  - rewrite filter_cons_False by (intros H; by apply H).
    cbn [total]. rewrite IH. case_decide; [congruence | lia].
  - rewrite filter_cons_True by done. cbn [total]. by rewrite IH.
Qed.

(** X1. Idempotence under no new data: with a database that accepts every
    statement, a second cycle over the same sources, run on what the first
    one left, returns no record and leaves the table as it is. *)
Theorem second_cycle_finds_nothing env urls w :
  reads_ok env -> writes_ok env ->
  let w1 := (pollVotes env urls w).2 in
  (pollVotes env urls w1).1 = Ret [] /\
  table (pollVotes env urls w1).2 = table w1.
Proof.
  intros Hr Hw w1.
  rewrite pollVotes_returns, pollVotes_table.
  destruct (cycle_all_known env urls (table w1) (dbclock w1) Hr) as [-> ->];
    [|done].
  intros url voters vote Hu Hv Hin. unfold w1. rewrite pollVotes_table.
  by eapply cycle_nicknames_stored.
Qed.

Lemma second_cycle_finds_nothing_witness :
  let w1 := (pollVotes healthy_env ["A"; "B"] empty_world).2 in
  (pollVotes healthy_env ["A"; "B"] w1).1 = Ret [] /\
  table (pollVotes healthy_env ["A"; "B"] w1).2 = table w1.
Proof.
  apply (second_cycle_finds_nothing healthy_env ["A"; "B"] empty_world
           healthy_reads_ok healthy_writes_ok).
Defined.

(** X2. A cycle changes the table only at the nicknames of the records it
    returns: every other nickname keeps its count, or stays absent,
    whatever the sources answer and whatever the database rejects. *)
Theorem cycle_changes_only_returned_nicknames env urls w n :
  n ∉ map nickname (returned (pollVotes env urls w).1) ->
  table (pollVotes env urls w).2 !! n = table w !! n.
Proof.
  rewrite pollVotes_returns, pollVotes_table. cbn [returned].
  apply cycle_table_frame.
Qed.

Lemma cycle_changes_only_returned_nicknames_witness :
  table (pollVotes healthy_env ["A"; "B"] (world_with {[ "z" := 7 ]})).2 !! "z"
  = table (world_with {[ "z" := 7 ]}) !! "z".
Proof.
  apply (cycle_changes_only_returned_nicknames healthy_env ["A"; "B"]
           (world_with {[ "z" := 7 ]}) "z").
  vm_compute. intros H. repeat (apply elem_of_cons in H as [H|H]; [discriminate H|]).
  by apply elem_of_nil in H.
Defined.

(** X3. When the database accepts every write, the table after a cycle is
    the table before it with the returned records upserted one by one: each
    returned record is written, and nothing else is. *)
Theorem cycle_stores_returned_records env urls w :
  writes_ok env ->
  table (pollVotes env urls w).2 =
  foldl upsert_row (table w) (returned (pollVotes env urls w).1).
Proof.
  intros Hw. rewrite pollVotes_returns, pollVotes_table. cbn [returned].
  by apply cycle_table_foldl.
Qed.

Lemma cycle_stores_returned_records_witness :
  table (pollVotes healthy_env ["A"; "B"] empty_world).2 =
  foldl upsert_row (table empty_world)
    (returned (pollVotes healthy_env ["A"; "B"] empty_world).1).
Proof.
  apply (cycle_stores_returned_records healthy_env ["A"; "B"] empty_world
           healthy_writes_ok).
Defined.

(** X4. When the database accepts the reads, a cycle never changes the count
    of a nickname that was stored when it started: new votes of a known
    voter are not added. *)
Theorem known_counts_unchanged env urls w n c :
  reads_ok env ->
  table w !! n = Some c ->
  table (pollVotes env urls w).2 !! n = Some c.
Proof.
  intros Hr Hn. rewrite pollVotes_table, cycle_table_frame; [done|].
  intros Hin. apply list_elem_of_fmap in Hin as (vote & -> & Hin).
  apply cycle_novel_fresh in Hin; [|done]. apply Hin.
  apply elem_of_dom. eauto.
Qed.

Lemma known_counts_unchanged_witness :
  table (pollVotes healthy_env ["A"; "B"] (world_with {[ "x" := 1 ]})).2 !! "x"
  = Some 1.
Proof.
  apply (known_counts_unchanged healthy_env ["A"; "B"]
           (world_with {[ "x" := 1 ]}) "x" 1 healthy_reads_ok).
  reflexivity.
Defined.

(** X5. When the database accepts every write, the table a batch leaves does
    not depend on the order of its rows. *)
Theorem save_order_irrelevant env rows rows' w :
  writes_ok env ->
  rows ≡ₚ rows' ->
  table (saveVotesToDatabase env rows w).2 =
  table (saveVotesToDatabase env rows' w).2.
Proof.
  intros Hw Hperm. rewrite !saveVotesToDatabase_run. cbn [snd table].
  rewrite !write_rows_accepted, !accepted_all by done.
  by apply foldl_upsert_row_perm.
Qed.

Lemma save_order_irrelevant_witness :
  table (saveVotesToDatabase healthy_env [mkVote "x" 3; mkVote "y" 1]
           empty_world).2 =
  table (saveVotesToDatabase healthy_env [mkVote "y" 1; mkVote "x" 3]
           empty_world).2.
Proof.
  apply (save_order_irrelevant healthy_env [mkVote "x" 3; mkVote "y" 1]
           [mkVote "y" 1; mkVote "x" 3] empty_world healthy_writes_ok).
  apply perm_swap.
Defined.

(** X6. Duplicates inside one source's array are not filtered against each
    other: when the database accepts every statement and the nickname [n]
    is not stored, every record of the array with nickname [n] is returned,
    and [n] ends stored with the sum of their votes. *)
Theorem batch_duplicates_accumulate env url voters w n :
  reads_ok env -> writes_ok env ->
  voters_of (http env url) = Some voters ->
  table w !! n = None ->
  n ∈ map nickname voters ->
  (forall vote, vote ∈ voters -> nickname vote = n ->
     vote ∈ returned (fetchVotesFromApi env url w).1) /\
  table (fetchVotesFromApi env url w).2 !! n = Some (total n voters).
Proof.
  intros Hr Hw Hv Hn Hin.
  assert (Hfresh : n ∉ snapshot env (table w) (dbclock w)).
  { rewrite snapshot_ok by done. by apply not_elem_of_dom. }
  rewrite fetchVotesFromApi_returns, fetchVotesFromApi_table.
  unfold source_novel, source_table. rewrite Hv. cbn [returned]. split.
  - intros vote Hvote <-. by apply elem_of_novel.
  - rewrite write_rows_accepted, accepted_all by done.
    rewrite lookup_foldl_upsert_None; [by rewrite total_novel | done |].
    apply list_elem_of_fmap in Hin as (vote & -> & Hvote).
    apply list_elem_of_fmap. exists vote. split; [done|].
    by apply elem_of_novel.
Qed.

Lemma batch_duplicates_accumulate_witness :
  let env := mkEnv duplicate_http no_fault in
  mkVote "x" 2 ∈ returned (fetchVotesFromApi env "D" empty_world).1 /\
  table (fetchVotesFromApi env "D" empty_world).2 !! "x" = Some 5.
Proof.
  intros env.
  destruct (batch_duplicates_accumulate env "D"
              [mkVote "x" 3; mkVote "y" 1; mkVote "x" 2] empty_world "x")
    as [Hall Hsum]; [by intros k | by intros k n v | reflexivity | reflexivity
                    | apply list_elem_of_here |].
  split; [|exact Hsum].
  apply Hall; [|reflexivity]. do 2 apply list_elem_of_further.
  apply list_elem_of_here.
Defined.

(** *** What a cycle sends *)

Lemma fetched_urls_app l1 l2 :
  fetched_urls (l1 ++ l2) = fetched_urls l1 ++ fetched_urls l2.
Proof. unfold fetched_urls. apply omap_app. Qed.

Lemma statements_app l1 l2 :
  statements (l1 ++ l2) = statements l1 ++ statements l2.
Proof. unfold statements. apply omap_app. Qed.

Lemma fetched_urls_cons e l :
  fetched_urls (e :: l) =
  match fetch_of e with
  | Some url => url :: fetched_urls l
  | None => fetched_urls l
  end.
Proof. unfold fetched_urls. simpl. by destruct (fetch_of e). Qed.

Lemma statements_cons e l :
  statements (e :: l) =
  match stmt_of e with
  | Some s => s :: statements l
  | None => statements l
  end.
Proof. unfold statements. simpl. by destruct (stmt_of e). Qed.

Lemma fetched_urls_upserts (rows : list VoterRecord) :
  fetched_urls (map (fun vote => EvQuery (upsert_stmt vote)) rows) = [].
Proof.
  induction rows as [|vote rows IH]; [done|].
  cbn [map]. by rewrite fetched_urls_cons.
Qed.

Lemma statements_upserts (rows : list VoterRecord) :
  statements (map (fun vote => EvQuery (upsert_stmt vote)) rows) =
  map upsert_stmt rows.
Proof.
  induction rows as [|vote rows IH]; [done|].
  cbn [map]. by rewrite statements_cons, IH.
Qed.

Lemma save_outcome_silent env k rows :
  fetch_of (save_outcome env k rows) = None /\
  stmt_of (save_outcome env k rows) = None.
Proof.
  unfold save_outcome. by destruct (rejected env k rows) as [|[? ?] ?].
Qed.

Lemma fetched_urls_nil : fetched_urls [] = [].
Proof. done. Qed.

Lemma statements_nil : statements [] = [].
Proof. done. Qed.

Ltac trace_events :=
  repeat first [rewrite fetched_urls_app | rewrite statements_app
               | rewrite fetched_urls_cons | rewrite statements_cons
               | rewrite fetched_urls_nil | rewrite statements_nil
               | rewrite fetched_urls_upserts | rewrite statements_upserts];
  cbn [fetch_of stmt_of].

Lemma getStoredVotes_trace env w :
  exists line,
    getStoredVotes env w =
    (Ret (match db_fault env (dbclock w) SelectVotes with
          | Some _ => []
          | None => rows_of (table w)
          end),
     mkWorld (table w) (S (dbclock w)) (log w ++ [EvQuery SelectVotes; line]))
    /\ fetch_of line = None /\ stmt_of line = None.
Proof.
  unfold getStoredVotes, try_catch, bind, db_query, console_log,
    console_error, emit, ret.
  destruct (db_fault env (dbclock w) SelectVotes) as [msg|]; simpl.
  - exists (EvError (StoredVotesError msg)). by rewrite <- app_assoc.
  - exists (EvLog (StoredVotesRetrieved (rows_of (table w)))).
    by rewrite <- app_assoc.
Qed.

Lemma fetchVotesFromApi_trace env url w :
  exists new,
    fetchVotesFromApi env url w =
    (Ret (source_novel env url (table w) (dbclock w)),
     mkWorld (source_table env url (table w) (dbclock w))
             (source_clock env url (table w) (dbclock w))
             (log w ++ new))
    /\ fetched_urls new = [url]
    /\ statements new = source_statements env url (table w) (dbclock w).
Proof.
  unfold source_statements, source_novel, source_table, source_clock.
  unfold fetchVotesFromApi, bind, try_catch, fetch, console_log,
    console_error, emit, ret.
  simpl.
  destruct (http env url) as [msg|[] statusText [msg|[|[voters|]]]]; simpl;
    try (eexists; split; [by rewrite <- !app_assoc | by split]).
  destruct (getStoredVotes_trace env
              (mkWorld (table w) (dbclock w)
                 (((log w ++ [EvLog (FetchingFrom url)]) ++ [EvFetch url]) ++
                  [EvLog (ApiResponse (JsonObject (Some voters)))])))
    as (line & Hrun & Hf & Hs).
  simpl in Hrun. rewrite Hrun. clear Hrun. simpl.
  replace (map nickname
             match db_fault env (dbclock w) SelectVotes with
             | Some _ => []
             | None => rows_of (table w)
             end)
    with (snapshot env (table w) (dbclock w))
    by (unfold snapshot; by destruct (db_fault env (dbclock w) SelectVotes)).
  fold (novel env (table w) (dbclock w) voters).
  destruct (novel env (table w) (dbclock w) voters) as [|vote rest] eqn:En;
    simpl.
  - eexists. split.
    { rewrite <- !app_assoc.
      f_equal; try (f_equal; first [lia | reflexivity]). }
    trace_events. rewrite ?Hf, ?Hs, ?app_nil_r. by split.
  - rewrite saveVotesToDatabase_run. simpl.
    destruct (save_outcome_silent env (S (dbclock w)) (vote :: rest))
      as [Hof Hos].
    eexists. split.
    { rewrite <- !app_assoc.
      f_equal; try (f_equal; first [lia | reflexivity]). }
    trace_events. rewrite ?Hf, ?Hs, ?Hof, ?Hos, ?app_nil_r. by split.
Qed.

Lemma pollVotes_loop_trace env urls : forall acc w,
  exists new,
    pollVotes_loop env urls acc w =
    (Ret (acc ++ cycle_novel env urls (table w) (dbclock w)),
     mkWorld (cycle_table env urls (table w) (dbclock w))
             (cycle_clock env urls (table w) (dbclock w))
             (log w ++ new))
    /\ fetched_urls new = urls
    /\ statements new = cycle_statements env urls (table w) (dbclock w).
Proof.
  induction urls as [|url rest IH]; intros acc w.
  - exists []. simpl. unfold ret. rewrite !app_nil_r. by destruct w.
  - cbn [pollVotes_loop]. unfold bind at 1. unfold try_catch, bind at 1.
    unfold console_log at 1. unfold emit. cbn [fst snd].
    unfold bind at 1.
    destruct (fetchVotesFromApi_trace env url
                (mkWorld (table w) (dbclock w) (log w ++ [EvLog (PollingApi url)])))
      as (new1 & Hrun & Hf1 & Hs1).
    cbn [table dbclock log] in Hrun, Hs1. rewrite Hrun. unfold ret.
    destruct (IH (acc ++ source_novel env url (table w) (dbclock w))
                (mkWorld (source_table env url (table w) (dbclock w))
                   (source_clock env url (table w) (dbclock w))
                   ((log w ++ [EvLog (PollingApi url)]) ++ new1)))
      as (new2 & Hloop & Hf2 & Hs2).
    cbn [table dbclock log] in Hloop, Hs2. rewrite Hloop.
    exists ([EvLog (PollingApi url)] ++ new1 ++ new2).
    split; [by rewrite <- !app_assoc |].
    cbn [cycle_statements]. trace_events. by rewrite Hf1, Hf2, Hs1, Hs2.
Qed.

Lemma pollVotes_trace env urls w :
  exists new,
    log (pollVotes env urls w).2 = log w ++ new
    /\ fetched_urls new = urls
    /\ statements new = cycle_statements env urls (table w) (dbclock w).
Proof.
  unfold pollVotes, bind.
  destruct (pollVotes_loop_trace env urls [] w) as (new & Hrun & Hf & Hs).
  rewrite Hrun. unfold console_log, emit, ret. cbn [snd table dbclock log app].
  eexists. split; [by rewrite <- !app_assoc |].
  trace_events. by rewrite Hf, Hs, !app_nil_r.
Qed.

Lemma cycle_statements_upserts env urls : forall t k,
  List.filter is_upsert (cycle_statements env urls t k) =
  map upsert_stmt (cycle_novel env urls t k).
Proof.
  induction urls as [|url rest IH]; intros t k; [done|].
  cbn [cycle_statements cycle_novel].
  rewrite List.filter_app, map_app, IH. f_equal.
  unfold source_statements, source_novel.
  destruct (voters_of (http env url)) as [voters|]; [|done].
  cbn [List.filter is_upsert].
  induction (novel env t k voters) as [|vote l IHl]; [done|].
  cbn [map List.filter upsert_stmt is_upsert]. by rewrite IHl.
Qed.

Lemma cycle_statements_no_create env urls : forall t k,
  CreateTable ∉ cycle_statements env urls t k.
Proof.
  induction urls as [|url rest IH]; intros t k; [apply not_elem_of_nil|].
  cbn [cycle_statements]. apply not_elem_of_app. split; [|apply IH].
  unfold source_statements.
  destruct (voters_of (http env url)) as [voters|]; [|apply not_elem_of_nil].
  apply not_elem_of_cons. split; [done|].
  intros H. apply list_elem_of_fmap in H as (vote & Heq & _).
  discriminate Heq.
Qed.

Lemma cycle_statements_length env urls : forall t k,
  (k + length (cycle_statements env urls t k))%nat = cycle_clock env urls t k.
Proof.
  induction urls as [|url rest IH]; intros t k; cbn [cycle_statements cycle_clock].
  - simpl. lia.
  - rewrite length_app, <- IH. unfold source_statements, source_clock.
    destruct (voters_of (http env url)) as [voters|]; simpl;
      rewrite ?length_map; lia.
Qed.

(** X7. Whatever the sources answer and whatever the database does, a cycle
    requests every configured URL exactly once, in the configured order: a
    failing source neither stops the cycle nor is it retried. *)
Theorem cycle_fetches_each_source_once env urls w :
  exists new,
    log (pollVotes env urls w).2 = log w ++ new /\
    fetched_urls new = urls.
Proof.
  destruct (pollVotes_trace env urls w) as (new & Hlog & Hf & _). eauto.
Qed.

(** X8. The writes of a cycle are exactly its answer: the upsert statements
    sent during a cycle are, in order, one per returned record, with that
    record's nickname and votes; no schema statement is sent; and the
    database has received as many statements as the log shows. *)
Theorem cycle_upserts_exactly_returned env urls w :
  exists new,
    log (pollVotes env urls w).2 = log w ++ new /\
    List.filter is_upsert (statements new) =
      map upsert_stmt (returned (pollVotes env urls w).1) /\
    (CreateTable ∉ statements new) /\
    dbclock (pollVotes env urls w).2 = (dbclock w + length (statements new))%nat.
Proof.
  destruct (pollVotes_trace env urls w) as (new & Hlog & _ & Hs).
  exists new. rewrite Hs, pollVotes_returns, pollVotes_clock. cbn [returned].
  split; [done|]. split; [apply cycle_statements_upserts|].
  split; [apply cycle_statements_no_create|].
  by rewrite cycle_statements_length.
Qed.

(** X9. A response that is not ok, or whose body is not JSON, or is [null],
    or has no [voters] array, or a request that fails: [fetchVotesFromApi]
    returns the empty list and sends nothing to the database, not even the
    read of the stored votes. *)
Theorem unusable_response_sends_nothing env url w :
  voters_of (http env url) = None ->
  (fetchVotesFromApi env url w).1 = Ret [] /\
  table (fetchVotesFromApi env url w).2 = table w /\
  dbclock (fetchVotesFromApi env url w).2 = dbclock w /\
  exists new,
    log (fetchVotesFromApi env url w).2 = log w ++ new /\
    statements new = [] /\ fetched_urls new = [url].
Proof.
  intros Hv.
  destruct (fetchVotesFromApi_trace env url w) as (new & Hrun & Hf & Hs).
  rewrite Hrun. cbn [fst snd table dbclock log].
  unfold source_novel, source_table, source_clock, source_statements in *.
  rewrite Hv in *. repeat (split; [done|]). exists new. by repeat split.
Qed.

Lemma unusable_response_sends_nothing_witness :
  let env := mkEnv broken_http no_fault in
  ((fetchVotesFromApi env "null" empty_world).1 = Ret [] /\
   dbclock (fetchVotesFromApi env "null" empty_world).2 = 0%nat) /\
  ((fetchVotesFromApi env "html" empty_world).1 = Ret [] /\
   dbclock (fetchVotesFromApi env "html" empty_world).2 = 0%nat).
Proof.
  intros env. split.
  - destruct (unusable_response_sends_nothing env "null" empty_world eq_refl)
      as (Hret & _ & Hclock & _). by split.
  - destruct (unusable_response_sends_nothing env "html" empty_world eq_refl)
      as (Hret & _ & Hclock & _). by split.
Defined.

Lemma cycle_novel_sublist env urls : forall t k,
  cycle_novel env urls t k `sublist_of` fetched env urls.
Proof.
  induction urls as [|url rest IH]; intros t k; [done|].
  cbn [cycle_novel]. unfold fetched. cbn [flat_map].
  apply sublist_app; [|apply IH].
  unfold source_novel. destruct (voters_of (http env url)) as [voters|]; simpl.
  - unfold novel. apply sublist_filter.
  - done.
Qed.

(** X10. A cycle invents and reorders nothing: the returned list is a
    sublist of the records the sources answered with, taken source by source
    in the configured order. *)
Theorem returned_sublist_of_fetched env urls w :
  returned (pollVotes env urls w).1 `sublist_of` fetched env urls.
Proof.
  rewrite pollVotes_returns. cbn [returned]. apply cycle_novel_sublist.
Qed.

(** *** The schema retries *)

Lemma initializeDatabase_loop_trace env fuel : forall retries w,
  (maxRetries - retries < fuel)%nat ->
  (retries < maxRetries)%nat ->
  exists w' new n,
    initializeDatabase_loop env fuel retries w = Some (Ret tt, w') /\
    log w' = log w ++ new /\
    List.filter is_effect new = retry_trace n /\
    (n < maxRetries - retries)%nat /\
    dbclock w' = (dbclock w + S n)%nat /\
    table w' = table w.
Proof.
  induction fuel as [|fuel IH]; intros retries w Hfuel Hlt; [lia|].
  destruct (db_fault env (dbclock w) CreateTable) as [msg|] eqn:E.
  - rewrite (initializeDatabase_loop_fail _ _ _ _ msg) by done.
    destruct (decide (S retries < maxRetries)%nat) as [Hmore|Hlast].
    + edestruct (IH (S retries)) as (w' & new & n & -> & Hlog & Heff & Hn & Hk & Ht);
        [lia | done |].
      cbn [log dbclock table] in Hlog, Hk, Ht.
      apply Nat.leb_gt in Hmore. rewrite Hmore in Hlog.
      eexists w', _, (S n). split; [done|].
      split; [by rewrite Hlog, <- !app_assoc|].
      cbn [List.filter is_effect app retry_trace].
      rewrite Heff. repeat split; [lia | lia | done].
    + destruct fuel as [|fuel']; [lia|].
      rewrite initializeDatabase_loop_exit by lia.
      assert (Hle : (maxRetries <=? S retries)%nat = true)
        by (apply Nat.leb_le; lia).
      rewrite Hle. eexists _, _, 0%nat. split; [done|].
      cbn [log dbclock table]. split; [done|].
      repeat split; [lia | lia].
  - rewrite initializeDatabase_loop_success by done.
    eexists _, _, 0%nat. split; [done|]. cbn [log dbclock table].
    split; [done|]. repeat split; [lia | lia].
Qed.

(** X11. Whatever the database does, [initializeDatabase] returns normally
    after at most 5 attempts: it sends the schema statement between one and
    five times and nothing else, pauses 5000 ms between two attempts and
    never after the last one, and leaves the table as it is. *)
Theorem initializeDatabase_bounded env w :
  exists w' new n,
    initializeDatabase env w = Some (Ret tt, w') /\
    log w' = log w ++ new /\
    List.filter is_effect new = retry_trace n /\
    (n < 5)%nat /\
    dbclock w' = (dbclock w + S n)%nat /\
    table w' = table w.
Proof.
  destruct (initializeDatabase_loop_trace env (S maxRetries) 0 w)
    as (w' & new & n & H); [lia | unfold maxRetries; lia |].
  exists w', new, n. by rewrite Nat.sub_0_r in H.
Qed.

Lemma initializeDatabase_loop_first_success env j : forall fuel retries w,
  (j < fuel)%nat ->
  (retries + j < maxRetries)%nat ->
  (forall i, (i < j)%nat -> is_Some (db_fault env (dbclock w + i) CreateTable)) ->
  db_fault env (dbclock w + j) CreateTable = None ->
  exists w' new,
    initializeDatabase_loop env fuel retries w = Some (Ret tt, w') /\
    log w' = log w ++ new /\
    List.filter is_effect new = retry_trace j /\
    last new = Some (EvLog TableInitialized).
Proof.
  induction j as [|j IH]; intros fuel retries w Hfuel Hlt Hfail Hok.
  - destruct fuel as [|fuel]; [lia|]. rewrite Nat.add_0_r in Hok.
    rewrite initializeDatabase_loop_success by (done || lia).
    eexists _, _. by repeat split.
  - destruct fuel as [|fuel]; [lia|].
    destruct (Hfail 0%nat) as [msg E]; [lia|]. rewrite Nat.add_0_r in E.
    rewrite (initializeDatabase_loop_fail _ _ _ _ msg) by (done || lia).
    assert (Hmore : (maxRetries <=? S retries)%nat = false)
      by (apply Nat.leb_gt; lia).
    rewrite Hmore.
    edestruct (IH fuel (S retries)) as (w' & new & -> & Hlog & Heff & Hlast);
      [lia | lia | | |].
    + intros i Hi. cbn [dbclock].
      replace (S (dbclock w) + i)%nat with (dbclock w + S i)%nat by lia.
      apply Hfail. lia.
    + cbn [dbclock].
      by replace (S (dbclock w) + j)%nat with (dbclock w + S j)%nat by lia.
    + cbn [log] in Hlog. eexists w', _. split; [done|].
      split; [by rewrite Hlog, <- !app_assoc|].
      split.
      * cbn [List.filter is_effect app retry_trace]. by rewrite Heff.
      * rewrite !last_app, Hlast. done.
Qed.

(** X12. [initializeDatabase] stops at the first attempt the database
    accepts: when the first [j] attempts (at most 4) are rejected and the
    next one is accepted, it makes [j + 1] attempts with [j] pauses of
    5000 ms between them, and ends by reporting the table as initialized. *)
Theorem initializeDatabase_stops_at_first_success env w j :
  (j < 5)%nat ->
  (forall i, (i < j)%nat -> is_Some (db_fault env (dbclock w + i) CreateTable)) ->
  db_fault env (dbclock w + j) CreateTable = None ->
  exists w' new,
    initializeDatabase env w = Some (Ret tt, w') /\
    log w' = log w ++ new /\
    List.filter is_effect new = retry_trace j /\
    last new = Some (EvLog TableInitialized).
Proof.
  intros Hj Hfail Hok.
  apply initializeDatabase_loop_first_success; try done; unfold maxRetries; lia.
Qed.

Lemma initializeDatabase_stops_at_first_success_witness :
  exists w' new,
    initializeDatabase (mkEnv example_http (first_fault 2)) empty_world
      = Some (Ret tt, w') /\
    log w' = log empty_world ++ new /\
    List.filter is_effect new = retry_trace 2 /\
    last new = Some (EvLog TableInitialized).
Proof.
  apply (initializeDatabase_stops_at_first_success
           (mkEnv example_http (first_fault 2)) empty_world 2).
  - lia.
  - intros i Hi. simpl. destruct i as [|[|i]]; [by eexists | by eexists | lia].
  - reflexivity.
Defined.

(** *** The read of the stored votes *)

Lemma elem_of_rows_of (t : gmap string Z) n c :
  mkVote n c ∈ rows_of t <-> t !! n = Some c.
Proof.
  unfold rows_of. rewrite list_elem_of_fmap. split.
  - intros ([m d] & [= -> ->] & H). by apply elem_of_map_to_list in H.
  - intros H. exists (n, c). split; [done|]. by apply elem_of_map_to_list.
Qed.

Lemma NoDup_rows_of (t : gmap string Z) : NoDup (map nickname (rows_of t)).
Proof.
  unfold rows_of.
  replace (map nickname ((fun r => mkVote r.1 r.2) <$> map_to_list t))
    with ((map_to_list t).*1).
  - apply NoDup_fst_map_to_list.
  - induction (map_to_list t) as [|[m d] l IH]; [done|].
    cbn [fmap list_fmap map fst nickname]. f_equal. exact IH.
Qed.

(** X13. [getStoredVotes] never throws and never changes the table; it
    sends one statement. Its rows are exactly the stored nicknames with
    their counts, one row per nickname, when the database accepts the read,
    and no row at all when it rejects it. *)
Theorem getStoredVotes_reads_table env w :
  exists rows,
    (getStoredVotes env w).1 = Ret rows /\
    table (getStoredVotes env w).2 = table w /\
    dbclock (getStoredVotes env w).2 = S (dbclock w) /\
    NoDup (map nickname rows) /\
    forall n c,
      mkVote n c ∈ rows <->
      db_fault env (dbclock w) SelectVotes = None /\ table w !! n = Some c.
Proof.
  destruct (getStoredVotes_run env w) as (line & Hrun & _).
  rewrite Hrun. cbn [fst snd table dbclock].
  destruct (db_fault env (dbclock w) SelectVotes) as [msg|].
  - exists []. repeat (split; [done || apply NoDup_nil_2|]).
    intros n c. split; [by intros ?%elem_of_nil | by intros [? _]].
  - exists (rows_of (table w)). repeat (split; [done|]).
    split; [apply NoDup_rows_of|].
    intros n c. rewrite elem_of_rows_of.
    split; [by intros H; split | by intros [_ H]].
Qed.

(** *** The configured sources *)

Lemma split_comma_nonempty s : split_comma s ≠ [].
Proof.
  destruct s as [|c rest]; [done|]. cbn [split_comma].
  case_decide; [done|]. by destruct (split_comma rest).
Qed.

Lemma join_cons_char sep c piece pieces :
  join sep (String c piece :: pieces) = String c (join sep (piece :: pieces)).
Proof. by destruct pieces. Qed.

Lemma join_split_comma s : join "," (split_comma s) = s.
Proof.
  induction s as [|c rest IH]; [done|]. cbn [split_comma].
  case_decide as Hc.
  - subst c. pose proof (split_comma_nonempty rest) as Hne.
    destruct (split_comma rest) as [|piece pieces] eqn:E; [done|].
    cbn [join]. simpl. by rewrite <- IH.
  - pose proof (split_comma_nonempty rest) as Hne.
    destruct (split_comma rest) as [|piece pieces] eqn:E; [done|].
    by rewrite join_cons_char, IH.
Qed.

Lemma length_split_comma s : length (split_comma s) = S (commas s).
Proof.
  induction s as [|c rest IH]; [done|]. cbn [split_comma commas].
  case_decide.
  - cbn [length]. by rewrite IH.
  - pose proof (split_comma_nonempty rest) as Hne.
    destruct (split_comma rest) as [|piece pieces] eqn:E; [done|].
    cbn [length] in *. by rewrite IH.
Qed.

Lemma split_comma_pieces s piece :
  piece ∈ split_comma s -> commas piece = 0%nat.
Proof.
  revert piece. induction s as [|c rest IH]; intros piece Hin.
  - apply list_elem_of_singleton in Hin as ->. done.
  - cbn [split_comma] in Hin. case_decide as Hc.
    + apply elem_of_cons in Hin as [->|Hin]; [done | by apply IH].
    + pose proof (split_comma_nonempty rest) as Hne.
      destruct (split_comma rest) as [|p ps] eqn:E; [done|].
      apply elem_of_cons in Hin as [->|Hin].
      * cbn [commas]. rewrite decide_False by done.
        rewrite (IH p); [done | apply list_elem_of_here].
      * apply IH. by apply list_elem_of_further.
Qed.

Lemma split_comma_app piece rest :
  commas piece = 0%nat ->
  split_comma (piece +:+ String "," rest) = piece :: split_comma rest.
Proof.
  induction piece as [|c piece IH]; intros Hc.
  - done.
  - cbn [commas] in Hc. case_decide as E; [lia|].
    change (String c piece +:+ String "," rest)
      with (String c (piece +:+ String "," rest)).
    cbn [split_comma]. rewrite decide_False by done.
    by rewrite IH by lia.
Qed.

Lemma split_comma_no_comma piece :
  commas piece = 0%nat -> split_comma piece = [piece].
Proof.
  induction piece as [|c piece IH]; intros Hc; [done|].
  cbn [commas] in Hc. case_decide as E; [lia|].
  cbn [split_comma]. rewrite decide_False by done. by rewrite IH by lia.
Qed.

(** X14. Splitting [API_URLS] at the commas loses nothing: joining the
    pieces with commas gives the string back; there is one piece more than
    there are commas (so at least one, the empty URL for an empty string);
    and no piece contains a comma. *)
Theorem split_comma_lossless s :
  join "," (split_comma s) = s /\
  length (split_comma s) = S (commas s) /\
  forall piece, piece ∈ split_comma s -> commas piece = 0%nat.
Proof.
  split; [apply join_split_comma|]. split; [apply length_split_comma|].
  apply split_comma_pieces.
Qed.

(** X15. A non-empty list of URLs without commas, written with commas
    between them, is read back as the same list. *)
Theorem split_comma_of_join (urls : list string) :
  urls ≠ [] ->
  (forall url, url ∈ urls -> commas url = 0%nat) ->
  split_comma (join "," urls) = urls.
Proof.
  induction urls as [|url rest IH]; intros Hne Hfree; [done|].
  destruct rest as [|url' rest].
  - apply split_comma_no_comma, Hfree, list_elem_of_here.
  - change (join "," (url :: url' :: rest))
      with (url +:+ String "," (join "," (url' :: rest))).
    rewrite split_comma_app by apply Hfree, list_elem_of_here.
    rewrite IH; [done | done |].
    intros u Hu. by apply Hfree, list_elem_of_further.
Qed.

Lemma split_comma_of_join_witness :
  split_comma (join "," ["https://a.example/votes"; "https://b.example/votes"])
  = ["https://a.example/votes"; "https://b.example/votes"].
Proof.
  apply (split_comma_of_join
           ["https://a.example/votes"; "https://b.example/votes"]).
  - done.
  - intros url Hin.
    repeat (apply elem_of_cons in Hin as [->|Hin]; [reflexivity|]).
    by apply elem_of_nil in Hin.
Defined.

(** X16. With the sources read from [API_URLS], a cycle requests exactly the
    pieces of that string, in order: the requested URLs joined with commas
    are the string, and there is one request more than there are commas;
    an empty string, or a trailing comma, makes it request the empty
    URL. *)
Theorem cycle_fetches_configured_sources env s w :
  exists urls new,
    apiUrls (Some s) = Ret urls /\
    log (pollVotes env urls w).2 = log w ++ new /\
    join "," (fetched_urls new) = s /\
    length (fetched_urls new) = S (commas s).
Proof.
  destruct (pollVotes_trace env (split_comma s) w) as (new & Hlog & Hf & _).
  exists (split_comma s), new. rewrite Hf.
  repeat split; [done | apply join_split_comma | apply length_split_comma].
Qed.

(** *** The Discord handlers *)

Lemma new_events_app w w1 new :
  log w1 = log w ++ new -> new_events w w1 = Core <$> new.
Proof. intros H. unfold new_events. by rewrite H, drop_app_length. Qed.

Lemma core_events_app l1 l2 :
  core_events (l1 ++ l2) = core_events l1 ++ core_events l2.
Proof. unfold core_events. apply omap_app. Qed.

Lemma replies_app l1 l2 : replies (l1 ++ l2) = replies l1 ++ replies l2.
Proof. unfold replies. apply omap_app. Qed.

Lemma replies_cons e l :
  replies (e :: l) =
  match reply_of e with
  | Some content => content :: replies l
  | None => replies l
  end.
Proof. unfold replies. simpl. by destruct (reply_of e). Qed.

Lemma registrations_app l1 l2 :
  registrations (l1 ++ l2) = registrations l1 ++ registrations l2.
Proof. unfold registrations. apply omap_app. Qed.

Lemma core_events_Core (l : list Event) : core_events (Core <$> l) = l.
Proof. induction l as [|e l IH]; [done|]. simpl. by f_equal. Qed.

Lemma replies_Core (l : list Event) : replies (Core <$> l) = [].
Proof. induction l as [|e l IH]; [done | by simpl]. Qed.

Lemma registrations_Core (l : list Event) : registrations (Core <$> l) = [].
Proof. induction l as [|e l IH]; [done | by simpl]. Qed.

Lemma defers_Core (l : list Event) : List.filter is_defer (Core <$> l) = [].
Proof. induction l as [|e l IH]; [done | by simpl]. Qed.

Lemma core_pollVotes env urls b :
  exists new,
    core (pollVotes env urls) b =
    (Ret (cycle_novel env urls (table (world b)) (dbclock (world b))),
     mkBot (pollVotes env urls (world b)).2 (trace b ++ (Core <$> new))) /\
    log (pollVotes env urls (world b)).2 = log (world b) ++ new.
Proof.
  destruct (pollVotes_run env urls (world b)) as (new & Hrun & _).
  exists new. unfold core. rewrite Hrun. cbn [snd log].
  by rewrite (new_events_app _ _ new).
Qed.

Lemma cycle_all_unusable env urls : forall t k,
  (forall url, url ∈ urls -> voters_of (http env url) = None) ->
  cycle_novel env urls t k = [] /\ cycle_table env urls t k = t.
Proof.
  induction urls as [|url rest IH]; intros t k Hbad; [done|].
  cbn [cycle_novel cycle_table]. unfold source_novel, source_table, source_clock.
  rewrite (Hbad url) by apply list_elem_of_here. cbn [app].
  apply IH. intros u Hu. by apply Hbad, list_elem_of_further.
Qed.

(** X17. An interaction that is not a command, or is another command than
    [voting], is ignored: the handler returns normally, runs no core
    function (no request, no statement), and calls neither [deferReply] nor
    [editReply]. *)
Theorem ignored_interaction_does_nothing env dis urls interaction b :
  isCommand interaction = false \/ commandName interaction ≠ Some "voting" ->
  exists new,
    on_interactionCreate env dis urls interaction b =
      (Ret tt, mkBot (world b) (trace b ++ new)) /\
    core_events new = [] /\ replies new = [] /\
    List.filter is_defer new = [].
Proof.
  intros Hignored. unfold on_interactionCreate, bindB, say, retB.
  cbn [world trace].
  destruct (isCommand interaction) eqn:Hcmd; cbn [negb].
  - destruct Hignored as [?|Hname]; [done|].
    rewrite decide_False by done. cbn [world trace].
    eexists. split; [reflexivity|]. done.
  - cbn [world trace]. eexists.
    split; [rewrite <- ?app_assoc; reflexivity|]. done.
Qed.

Lemma ignored_interaction_does_nothing_witness :
  exists new,
    on_interactionCreate healthy_env quiet_discord ["A"; "B"]
      (mkInteraction true (Some "votes")) (mkBot empty_world []) =
      (Ret tt, mkBot empty_world ([] ++ new)) /\
    core_events new = [] /\ replies new = [] /\
    List.filter is_defer new = [].
Proof.
  apply (ignored_interaction_does_nothing healthy_env quiet_discord ["A"; "B"]
           (mkInteraction true (Some "votes")) (mkBot empty_world [])).
  right. discriminate.
Defined.

Lemma on_interactionCreate_voting env dis urls interaction b :
  isCommand interaction = true ->
  commandName interaction = Some "voting" ->
  defer_fault dis = None ->
  exists cnew tail,
    log (pollVotes env urls (world b)).2 = log (world b) ++ cnew /\
    on_interactionCreate env dis urls interaction b =
    (match edit_fault dis with Some msg => Throw msg | None => Ret tt end,
     mkBot (pollVotes env urls (world b)).2
       (trace b ++
        [BotLog (InteractionReceived (Some "voting")); BotLog ProcessingVoting;
         DeferReply] ++ (Core <$> cnew) ++
        EditReply
          (match cycle_novel env urls (table (world b)) (dbclock (world b)) with
           | [] => "No new votes found."
           | newVotes =>
               "Here are the latest votes:" +:+ newline +:+
               join newline (map vote_line newVotes)
           end) :: tail)) /\
    replies tail = [] /\ core_events tail = [].
Proof.
  intros Hcmd Hname Hdefer.
  unfold on_interactionCreate. unfold bindB at 1. unfold say at 1.
  rewrite Hcmd, Hname. cbn [negb]. rewrite decide_True by done.
  unfold bindB at 1. unfold say at 1. unfold bindB at 1. unfold call at 1.
  rewrite Hdefer. cbn [world trace]. unfold bindB at 1.
  match goal with
  | |- context [core (pollVotes env urls) ?b0] =>
      destruct (core_pollVotes env urls b0) as (cnew & Hcore & Hlog)
  end.
  cbn [world trace] in Hcore, Hlog. rewrite Hcore. exists cnew.
  destruct (cycle_novel env urls (table (world b)) (dbclock (world b)))
    as [|vote rest] eqn:Enovel; cbn [length Nat.ltb Nat.leb];
    unfold bindB, call, say; cbn [world trace];
    destruct (edit_fault dis) as [msg|]; cbn [fst snd world trace];
    eexists; (split; [exact Hlog|]);
    (split; [rewrite <- !app_assoc; reflexivity|]); done.
Qed.

(** X18. For the [voting] command, when [deferReply] succeeds, the handler
    defers the reply, then runs one cycle over the configured sources, then
    edits the reply exactly once. The reply is "No new votes found." when
    the cycle returned nothing; otherwise, when the votes of the returned
    records are integers up to [MAX_SAFE_INTEGER] in absolute value, it is
    the heading followed by one line per returned record, in order. The
    handler throws exactly when [editReply] is rejected. *)
Theorem voting_command_replies_once env dis urls interaction b :
  isCommand interaction = true ->
  commandName interaction = Some "voting" ->
  defer_fault dis = None ->
  let r := on_interactionCreate env dis urls interaction b in
  let cycle := pollVotes env urls (world b) in
  world r.2 = cycle.2 /\
  r.1 = match edit_fault dis with Some msg => Throw msg | None => Ret tt end /\
  exists cnew content tail,
    trace r.2 =
      trace b ++
      [BotLog (InteractionReceived (Some "voting")); BotLog ProcessingVoting;
       DeferReply] ++ (Core <$> cnew) ++ EditReply content :: tail /\
    log cycle.2 = log (world b) ++ cnew /\
    replies tail = [] /\ core_events tail = [] /\
    (returned cycle.1 = [] -> content = "No new votes found.") /\
    (returned cycle.1 ≠ [] ->
     (forall vote, vote ∈ returned cycle.1 ->
        (Z.abs (votes vote) <= MAX_SAFE_INTEGER)%Z) ->
     content =
       "Here are the latest votes:" +:+ newline +:+
       join newline (map vote_line (returned cycle.1))).
Proof.
  intros Hcmd Hname Hdefer r cycle.
  destruct (on_interactionCreate_voting env dis urls interaction b
              Hcmd Hname Hdefer) as (cnew & tail & Hlog & Hrun & Htail).
  subst r cycle. rewrite Hrun. cbn [fst snd world trace].
  split; [done|]. split; [done|].
  eexists cnew, _, tail. split; [reflexivity|]. split; [exact Hlog|].
  destruct Htail as [Hr Hc]. split; [exact Hr|]. split; [exact Hc|].
  rewrite pollVotes_returns. cbn [returned].
  destruct (cycle_novel env urls (table (world b)) (dbclock (world b)));
    by split.
Qed.

Lemma returned_example :
  returned (pollVotes healthy_env ["A"; "B"] empty_world).1 =
  [mkVote "x" 3; mkVote "y" 1].
Proof. vm_compute. reflexivity. Qed.

Lemma safe_votes_example vote :
  vote ∈ [mkVote "x" 3; mkVote "y" 1] ->
  (Z.abs (votes vote) <= MAX_SAFE_INTEGER)%Z.
Proof.
  intros Hin.
  repeat (apply elem_of_cons in Hin as [->|Hin];
          [unfold MAX_SAFE_INTEGER; simpl; lia|]).
  by apply elem_of_nil in Hin.
Qed.

Lemma voting_command_replies_once_witness :
  let b := mkBot empty_world [] in
  let i := mkInteraction true (Some "voting") in
  let r := on_interactionCreate healthy_env quiet_discord ["A"; "B"] i b in
  world r.2 = (pollVotes healthy_env ["A"; "B"] empty_world).2 /\
  r.1 = Ret tt /\
  exists content,
    EditReply content ∈ trace r.2 /\
    content =
      "Here are the latest votes:" +:+ newline +:+
      join newline
        (map vote_line
           (returned (pollVotes healthy_env ["A"; "B"] (world b)).1)).
Proof.
  intros b i r.
  destruct (voting_command_replies_once healthy_env quiet_discord ["A"; "B"]
              i b eq_refl eq_refl eq_refl)
    as (Hworld & Hret & cnew & content & tail & Htrace & _ & _ & _ & _
        & Hcontent).
  split; [exact Hworld|]. split; [exact Hret|].
  exists content. split.
  - fold r in Htrace. rewrite Htrace.
    apply elem_of_app. right. apply elem_of_app. right.
    apply elem_of_app. right. apply list_elem_of_here.
  - apply Hcontent.
    + intros H. pose proof returned_example as H2. cbn [world b] in H.
      rewrite H in H2. discriminate H2.
    + intros vote Hin. apply safe_votes_example. cbn [world b] in Hin.
      by rewrite returned_example in Hin.
Defined.

(** X19. When [deferReply] is rejected, the handler of the [voting] command
    throws that rejection (nothing catches it) before anything else is
    done: no cycle is run, so no request and no statement is sent, and no
    reply is edited. *)
Theorem rejected_defer_stops_the_command env dis urls interaction b msg :
  isCommand interaction = true ->
  commandName interaction = Some "voting" ->
  defer_fault dis = Some msg ->
  exists new,
    on_interactionCreate env dis urls interaction b =
      (Throw msg, mkBot (world b) (trace b ++ new)) /\
    core_events new = [] /\ replies new = [].
Proof.
  intros Hcmd Hname Hdefer.
  unfold on_interactionCreate, bindB, say, call.
  rewrite Hcmd, Hname. cbn [negb]. rewrite decide_True by done.
  rewrite Hdefer. cbn [world trace].
  eexists. split; [rewrite <- !app_assoc; reflexivity|]. done.
Qed.

Lemma rejected_defer_stops_the_command_witness :
  exists new,
    on_interactionCreate healthy_env
      (mkDiscord (Some "guild") None (Some "Unknown interaction") None)
      ["A"; "B"] (mkInteraction true (Some "voting")) (mkBot empty_world []) =
      (Throw "Unknown interaction", mkBot empty_world ([] ++ new)) /\
    core_events new = [] /\ replies new = [].
Proof.
  apply (rejected_defer_stops_the_command healthy_env
           (mkDiscord (Some "guild") None (Some "Unknown interaction") None)
           ["A"; "B"] (mkInteraction true (Some "voting"))
           (mkBot empty_world []) "Unknown interaction");
    reflexivity.
Defined.

(** X20. When every configured source is unusable (failed request, bad
    status, bad body), the [voting] command still answers, with the reply of
    a cycle without news, "No new votes found.", and the table is left as
    it was. *)
Theorem all_sources_unusable_reply env dis urls interaction b :
  isCommand interaction = true ->
  commandName interaction = Some "voting" ->
  defer_fault dis = None ->
  (forall url, url ∈ urls -> voters_of (http env url) = None) ->
  let r := on_interactionCreate env dis urls interaction b in
  table (world r.2) = table (world b) /\
  exists new,
    trace r.2 = trace b ++ new /\
    replies new = ["No new votes found."].
Proof.
  intros Hcmd Hname Hdefer Hbad r.
  destruct (on_interactionCreate_voting env dis urls interaction b
              Hcmd Hname Hdefer) as (cnew & tail & Hlog & Hrun & Hr & _).
  destruct (cycle_all_unusable env urls (table (world b)) (dbclock (world b))
              Hbad) as [Hnovel Htable].
  subst r. rewrite Hrun, Hnovel. cbn [snd world trace].
  split; [by rewrite pollVotes_table|].
  eexists. split; [reflexivity|].
  rewrite !replies_app, replies_Core, !replies_cons. cbn [reply_of app].
  by rewrite Hr.
Qed.

Lemma all_sources_unusable_reply_witness :
  let b := mkBot (world_with {[ "x" := 1 ]}) [] in
  let r :=
    on_interactionCreate healthy_env quiet_discord ["offline"; "status"]
      (mkInteraction true (Some "voting")) b in
  table (world r.2) = table (world b) /\
  exists new, trace r.2 = trace b ++ new /\ replies new = ["No new votes found."].
Proof.
  intros b.
  apply (all_sources_unusable_reply healthy_env quiet_discord
           ["offline"; "status"] (mkInteraction true (Some "voting")) b);
    try reflexivity.
  intros url Hin.
  repeat (apply elem_of_cons in Hin as [->|Hin]; [reflexivity|]).
  by apply elem_of_nil in Hin.
Defined.

(** X21. The [ready] handler never throws and never changes the table. It
    asks Discord to create the command [voting] exactly when the guild is
    found, once, whatever became of the schema statement (also after five
    rejected attempts) and whether or not Discord accepts the creation. *)
Theorem on_ready_registers_command env dis tag urls b :
  exists b' new,
    on_ready env dis tag urls b = Some (Ret tt, b') /\
    table (world b') = table (world b) /\
    trace b' = trace b ++ new /\
    log (world b') = log (world b) ++ core_events new /\
    registrations new =
      match guild dis with
      | Some _ => ["voting"]
      | None => []
      end.
Proof.
  unfold on_ready. cbn [world trace].
  destruct (initializeDatabase_loop_trace env (S maxRetries) 0 (world b))
    as (w' & cnew & n & Hinit & Hlog & _ & _ & _ & Htable);
    [lia | unfold maxRetries; lia |].
  fold (initializeDatabase env (world b)) in Hinit.
  rewrite Hinit, (new_events_app _ _ cnew) by done.
  destruct (guild dis) as [name|].
  - unfold try_catchB, bindB, say, call. cbn [world trace].
    destruct (register_fault dis) as [msg|]; cbn [world trace];
      eexists _, _; (split; [reflexivity|]); cbn [world trace];
      (split; [done|]); (split; [rewrite <- !app_assoc; reflexivity|]);
      rewrite !core_events_app, !registrations_app, core_events_Core,
        registrations_Core; cbn; by rewrite ?app_nil_r.
  - unfold say. cbn [world trace].
    eexists _, _. split; [reflexivity|]. cbn [world trace].
    split; [done|]. split; [rewrite <- !app_assoc; reflexivity|].
    rewrite !core_events_app, !registrations_app, core_events_Core,
      registrations_Core. cbn. by rewrite ?app_nil_r.
Qed.

(** X22. Whatever the sources answer and whatever the database rejects, no
    function of the core removes a stored nickname: the nicknames stored
    before a batch save, before a call of [fetchVotesFromApi] and before a
    cycle are still stored after it. *)
Theorem store_never_shrinks env rows url urls w :
  dom (table w) ⊆ dom (table (saveVotesToDatabase env rows w).2) /\
  dom (table w) ⊆ dom (table (fetchVotesFromApi env url w).2) /\
  dom (table w) ⊆ dom (table (pollVotes env urls w).2).
Proof.
  rewrite saveVotesToDatabase_run, fetchVotesFromApi_table, pollVotes_table.
  cbn [snd table]. split; [apply dom_write_rows_mono|].
  split; [apply dom_source_table_mono | apply dom_cycle_table_mono].
Qed.

(** X23. Asking twice: with a database that accepts every statement, when
    the [voting] command has been handled once, handling it again over the
    same sources answers "No new votes found.". *)
Theorem second_command_finds_nothing env dis urls interaction b :
  isCommand interaction = true ->
  commandName interaction = Some "voting" ->
  defer_fault dis = None ->
  reads_ok env -> writes_ok env ->
  let b1 := (on_interactionCreate env dis urls interaction b).2 in
  let r := on_interactionCreate env dis urls interaction b1 in
  table (world r.2) = table (world b1) /\
  exists new,
    trace r.2 = trace b1 ++ new /\
    replies new = ["No new votes found."].
Proof.
  intros Hcmd Hname Hdefer Hr Hw b1 r.
  destruct (on_interactionCreate_voting env dis urls interaction b
              Hcmd Hname Hdefer) as (cnew0 & tail0 & _ & Hrun0 & _).
  assert (Hworld : world b1 = (pollVotes env urls (world b)).2)
    by (unfold b1; by rewrite Hrun0).
  destruct (on_interactionCreate_voting env dis urls interaction b1
              Hcmd Hname Hdefer) as (cnew & tail & Hlog & Hrun & Hreplies & _).
  destruct (cycle_all_known env urls (table (world b1)) (dbclock (world b1)) Hr)
    as [Hnovel Htable].
  { intros url voters vote Hu Hv Hin. rewrite Hworld, pollVotes_table.
    by eapply cycle_nicknames_stored. }
  subst r. rewrite Hrun, Hnovel. cbn [snd world trace].
  split; [by rewrite pollVotes_table|].
  eexists. split; [reflexivity|].
  rewrite !replies_app, replies_Core, !replies_cons. cbn [reply_of app].
  by rewrite Hreplies.
Qed.

Lemma second_command_finds_nothing_witness :
  let i := mkInteraction true (Some "voting") in
  let b1 :=
    (on_interactionCreate healthy_env quiet_discord ["A"; "B"] i
       (mkBot empty_world [])).2 in
  let r := on_interactionCreate healthy_env quiet_discord ["A"; "B"] i b1 in
  table (world r.2) = table (world b1) /\
  exists new,
    trace r.2 = trace b1 ++ new /\
    replies new = ["No new votes found."].
Proof.
  intros i.
  apply (second_command_finds_nothing healthy_env quiet_discord ["A"; "B"] i
           (mkBot empty_world []) eq_refl eq_refl eq_refl
           healthy_reads_ok healthy_writes_ok).
Defined.

(** *** The order of the effects of a cycle *)

Lemma getStoredVotes_effects env w :
  exists line,
    getStoredVotes env w =
    (Ret (match db_fault env (dbclock w) SelectVotes with
          | Some _ => []
          | None => rows_of (table w)
          end),
     mkWorld (table w) (S (dbclock w)) (log w ++ [EvQuery SelectVotes; line]))
    /\ is_effect line = false.
Proof.
  unfold getStoredVotes, try_catch, bind, db_query, console_log,
    console_error, emit, ret.
  destruct (db_fault env (dbclock w) SelectVotes) as [msg|]; simpl.
  - exists (EvError (StoredVotesError msg)). by rewrite <- app_assoc.
  - exists (EvLog (StoredVotesRetrieved (rows_of (table w)))).
    by rewrite <- app_assoc.
Qed.

Lemma save_outcome_console env k rows :
  is_effect (save_outcome env k rows) = false.
Proof.
  unfold save_outcome. by destruct (rejected env k rows) as [|[? ?] ?].
Qed.

Lemma fetchVotesFromApi_effects env url w :
  exists new,
    fetchVotesFromApi env url w =
    (Ret (source_novel env url (table w) (dbclock w)),
     mkWorld (source_table env url (table w) (dbclock w))
             (source_clock env url (table w) (dbclock w))
             (log w ++ new))
    /\ List.filter is_effect new =
       EvFetch url ::
       map EvQuery (source_statements env url (table w) (dbclock w)).
Proof.
  unfold source_statements, source_novel, source_table, source_clock.
  unfold fetchVotesFromApi, bind, try_catch, fetch, console_log,
    console_error, emit, ret.
  simpl.
  destruct (http env url) as [msg|[] statusText [msg|[|[voters|]]]]; simpl;
    try (eexists; split; [by rewrite <- !app_assoc | done]).
  destruct (getStoredVotes_effects env
              (mkWorld (table w) (dbclock w)
                 (((log w ++ [EvLog (FetchingFrom url)]) ++ [EvFetch url]) ++
                  [EvLog (ApiResponse (JsonObject (Some voters)))])))
    as (line & Hrun & Hline).
  simpl in Hrun. rewrite Hrun. clear Hrun. simpl.
  replace (map nickname
             match db_fault env (dbclock w) SelectVotes with
             | Some _ => []
             | None => rows_of (table w)
             end)
    with (snapshot env (table w) (dbclock w))
    by (unfold snapshot; by destruct (db_fault env (dbclock w) SelectVotes)).
  fold (novel env (table w) (dbclock w) voters).
  destruct (novel env (table w) (dbclock w) voters) as [|vote rest] eqn:En;
    simpl.
  - eexists. split.
    { rewrite <- !app_assoc.
      f_equal; try (f_equal; first [lia | reflexivity]). }
    cbn [app List.filter is_effect]. by rewrite Hline.
  - rewrite saveVotesToDatabase_run. simpl.
    eexists. split.
    { rewrite <- !app_assoc.
      f_equal; try (f_equal; first [lia | reflexivity]). }
    cbn [app List.filter is_effect]. rewrite Hline.
    cbn [List.filter is_effect upsert_stmt].
    rewrite List.filter_app, effects_upserts. cbn [List.filter].
    rewrite save_outcome_console. by rewrite app_nil_r.
Qed.

Lemma pollVotes_loop_effects env urls : forall acc w,
  exists new,
    pollVotes_loop env urls acc w =
    (Ret (acc ++ cycle_novel env urls (table w) (dbclock w)),
     mkWorld (cycle_table env urls (table w) (dbclock w))
             (cycle_clock env urls (table w) (dbclock w))
             (log w ++ new))
    /\ List.filter is_effect new =
       cycle_effects env urls (table w) (dbclock w).
Proof.
  induction urls as [|url rest IH]; intros acc w.
  - exists []. simpl. unfold ret. rewrite !app_nil_r. by destruct w.
  - cbn [pollVotes_loop]. unfold bind at 1. unfold try_catch, bind at 1.
    unfold console_log at 1. unfold emit. cbn [fst snd].
    unfold bind at 1.
    destruct (fetchVotesFromApi_effects env url
                (mkWorld (table w) (dbclock w) (log w ++ [EvLog (PollingApi url)])))
      as (new1 & Hrun & He1).
    cbn [table dbclock log] in Hrun, He1. rewrite Hrun. unfold ret.
    destruct (IH (acc ++ source_novel env url (table w) (dbclock w))
                (mkWorld (source_table env url (table w) (dbclock w))
                   (source_clock env url (table w) (dbclock w))
                   ((log w ++ [EvLog (PollingApi url)]) ++ new1)))
      as (new2 & Hloop & He2).
    cbn [table dbclock log] in Hloop, He2. rewrite Hloop.
    exists ([EvLog (PollingApi url)] ++ new1 ++ new2).
    split; [by rewrite <- !app_assoc |].
    cbn [cycle_effects app List.filter is_effect].
    by rewrite List.filter_app, He1, He2.
Qed.

Lemma pollVotes_effects env urls w :
  exists new,
    log (pollVotes env urls w).2 = log w ++ new
    /\ List.filter is_effect new =
       cycle_effects env urls (table w) (dbclock w).
Proof.
  unfold pollVotes, bind.
  destruct (pollVotes_loop_effects env urls [] w) as (new & Hrun & He).
  rewrite Hrun. unfold console_log, emit, ret. cbn [snd table dbclock log app].
  eexists. split; [by rewrite <- !app_assoc |].
  rewrite List.filter_app, He. cbn [List.filter is_effect].
  by rewrite app_nil_r.
Qed.

(** *** The records of the usable sources *)




(** ** The claims *)

(** C1, as the code has it. When the database accepts every write, a cycle
    handles the sources in order, one after the other. For each source it
    sends the request; if the answer carries a [voters] array it then reads
    the stored nicknames once (one read per such source, not one per
    cycle), keeps the records whose nickname is not in that read, and, when
    some record is kept, saves these records in one batch, all before the
    next source is requested (at most one batch per read). The cycle
    returns the kept records of all sources, in source order. *)
Theorem pollVotes_per_source env urls w :
  writes_ok env ->
  exists new,
    log (pollVotes env urls w).2 = log w ++ new /\
    (pollVotes env urls w).1 =
      Ret (cycle_novel env urls (table w) (dbclock w)) /\
    table (pollVotes env urls w).2 =
      cycle_table env urls (table w) (dbclock w) /\
    List.filter is_effect new =
      cycle_effects env urls (table w) (dbclock w) /\
    count_reads new =
      length (filter (fun url => is_Some (voters_of (http env url))) urls) /\
    count_saves new = cycle_saves env urls (table w) (dbclock w) /\
    (count_saves new <= count_reads new)%nat.
Proof.
  intros _.
  destruct (pollVotes_run env urls w) as (new & Hrun & Hr & Hs).
  destruct (pollVotes_effects env urls w) as (new' & Hlog & He).
  rewrite Hrun in Hlog. cbn [snd log] in Hlog.
  apply app_inv_head in Hlog. subst new'.
  exists new. rewrite Hrun. cbn [fst snd log table].
  rewrite Hr, Hs, <- cycle_reads_length.
  repeat (split; [done|]). apply cycle_saves_le_reads.
Qed.

Lemma pollVotes_per_source_witness :
  exists new,
    log (pollVotes healthy_env ["A"; "B"] empty_world).2 =
      log empty_world ++ new /\
    (pollVotes healthy_env ["A"; "B"] empty_world).1 =
      Ret [mkVote "x" 3; mkVote "y" 1] /\
    List.filter is_effect new =
      [EvFetch "A"; EvQuery SelectVotes; EvQuery (UpsertVote "x" 3);
       EvFetch "B"; EvQuery SelectVotes; EvQuery (UpsertVote "y" 1)].
Proof.
  destruct (pollVotes_per_source healthy_env ["A"; "B"] empty_world
              healthy_writes_ok)
    as (new & Hlog & Hret & _ & Heff & _).
  exists new. split; [exact Hlog|]. split; [exact Hret|]. exact Heff.
Defined.

(** C1 as stated fails on the spec's own example: two reads and two batch
    saves are made in the cycle. *)
Lemma two_sources_two_snapshots :
  ~ single_snapshot_cycle healthy_env ["A"; "B"] empty_world.
Proof.
  intros (new & Hlog & Hreads & _). vm_compute in Hlog. subst new.
  vm_compute in Hreads. discriminate Hreads.
Qed.

(** C2, as the code has it. With a database that accepts every statement, a
    record whose nickname was reported by an earlier source of the same
    cycle is not kept when a later source reports it: the later source is
    filtered against a read made after the earlier source was saved. In the
    spec's example (empty store, A answers [x:3], B answers [x:2, y:1]) the
    cycle returns [x:3, y:1] and leaves x = 3 and y = 1 in the store. *)
Theorem later_source_duplicate_filtered env pre url post w :
  reads_ok env -> writes_ok env ->
  let t := cycle_table env pre (table w) (dbclock w) in
  let k := cycle_clock env pre (table w) (dbclock w) in
  ((pollVotes env (pre ++ url :: post) w).1 =
     Ret (cycle_novel env pre (table w) (dbclock w) ++
          source_novel env url t k ++
          cycle_novel env post (source_table env url t k)
            (source_clock env url t k)) /\
   forall earlier voters vote,
     earlier ∈ pre -> voters_of (http env earlier) = Some voters ->
     nickname vote ∈ map nickname voters ->
     vote ∉ source_novel env url t k) /\
  ((pollVotes healthy_env ["A"; "B"] empty_world).1 =
     Ret [mkVote "x" 3; mkVote "y" 1] /\
   table (pollVotes healthy_env ["A"; "B"] empty_world).2 =
     {[ "x" := 3; "y" := 1 ]}).
Proof.
  intros Hr Hw t k. split; [split|].
  - by rewrite pollVotes_returns, cycle_novel_app.
  - intros earlier voters vote Hin Hv Hnick Hnovel.
    apply list_elem_of_fmap in Hnick as (vote' & Heq & Hin').
    unfold source_novel in Hnovel.
    destruct (voters_of (http env url)) as [voters'|];
      [|by apply elem_of_nil in Hnovel].
    apply elem_of_novel in Hnovel as [Hfresh _]. apply Hfresh.
    apply snapshot_ok; [done|]. rewrite Heq.
    by eapply cycle_nicknames_stored.
  - split; [by vm_compute|].
    apply map_eq. intros n. rewrite pollVotes_table.
    by vm_compute.
Qed.

Lemma later_source_duplicate_filtered_witness :
  (pollVotes healthy_env ["A"; "B"] empty_world).1 =
    Ret (cycle_novel healthy_env ["A"] ∅ 0 ++
         source_novel healthy_env "B" (cycle_table healthy_env ["A"] ∅ 0)
           (cycle_clock healthy_env ["A"] ∅ 0) ++ []) /\
  mkVote "x" 2 ∉
    source_novel healthy_env "B" (cycle_table healthy_env ["A"] ∅ 0)
      (cycle_clock healthy_env ["A"] ∅ 0).
Proof.
  destruct (later_source_duplicate_filtered healthy_env ["A"] "B" []
              empty_world healthy_reads_ok healthy_writes_ok)
    as [[Hret Hdup] _].
  split; [exact Hret|].
  apply (Hdup "A" [mkVote "x" 3] (mkVote "x" 2)).
  - apply list_elem_of_here.
  - reflexivity.
  - apply list_elem_of_here.
Defined.

(** C2 as stated fails on its own example: the record [x:2] of the second
    source is not returned, and [x] is stored with 3. *)
Lemma second_source_duplicate_dropped :
  ~ both_duplicates_pass healthy_env ["A"; "B"] empty_world.
Proof.
  intros (_ & _ & _ & Hx). vm_compute in Hx. discriminate Hx.
Qed.

(** C3. Accumulation law: for every nickname [n] not stored yet and all
    counts [a] and [b], saving [n] with [a] and then saving it again with
    [b] (two batches, or two rows of one batch), both accepted by the
    database, leaves the stored count of [n] equal to [a + b]. *)
Theorem upsert_twice_accumulates env n a b w :
  table w !! n = None ->
  db_fault env (dbclock w) (UpsertVote n a) = None ->
  db_fault env (S (dbclock w)) (UpsertVote n b) = None ->
  let w1 := (saveVotesToDatabase env [mkVote n a] w).2 in
  let w2 := (saveVotesToDatabase env [mkVote n b] w1).2 in
  table w2 !! n = Some (a + b) /\
  table (saveVotesToDatabase env [mkVote n a; mkVote n b] w).2 !! n
    = Some (a + b).
Proof.
  intros Hn Ha Hb. cbv zeta. rewrite !saveVotesToDatabase_run.
  cbn [fst snd table dbclock write_rows length]. unfold upsert_stmt.
  cbn [nickname votes]. rewrite Nat.add_1_r, Ha, Hb.
  unfold upsert_row. cbn [nickname votes].
  rewrite !lookup_upsert_eq, Hn. done.
Qed.

Lemma upsert_twice_accumulates_witness :
  let w1 := (saveVotesToDatabase healthy_env [mkVote "x" 3] empty_world).2 in
  let w2 := (saveVotesToDatabase healthy_env [mkVote "x" 2] w1).2 in
  table w2 !! "x" = Some 5 /\
  table (saveVotesToDatabase healthy_env [mkVote "x" 3; mkVote "x" 2]
           empty_world).2 !! "x" = Some 5.
Proof.
  apply (upsert_twice_accumulates healthy_env "x" 3 2 empty_world);
    reflexivity.
Defined.

(** C4. Retry bound: when the database rejects the schema statement on every
    attempt, [initializeDatabase] sends it exactly 5 times, sleeps 5000 ms
    between two consecutive attempts (and not after the last), changes
    nothing in the table, and returns normally. *)
Theorem initializeDatabase_retry_bound env w :
  (forall k, is_Some (db_fault env k CreateTable)) ->
  exists w' new,
    initializeDatabase env w = Some (Ret tt, w') /\
    table w' = table w /\
    log w' = log w ++ new /\
    List.filter is_effect new =
      [EvQuery CreateTable; EvSleep 5000;
       EvQuery CreateTable; EvSleep 5000;
       EvQuery CreateTable; EvSleep 5000;
       EvQuery CreateTable; EvSleep 5000;
       EvQuery CreateTable].
Proof.
  intros Hfail.
  destruct (Hfail (dbclock w)) as [m0 E0].
  destruct (Hfail (S (dbclock w))) as [m1 E1].
  destruct (Hfail (S (S (dbclock w)))) as [m2 E2].
  destruct (Hfail (S (S (S (dbclock w))))) as [m3 E3].
  destruct (Hfail (S (S (S (S (dbclock w)))))) as [m4 E4].
  unfold initializeDatabase. change (S maxRetries) with 6%nat.
  rewrite (initializeDatabase_loop_fail _ _ _ _ m0) by (done || (unfold maxRetries; lia)).
  rewrite (initializeDatabase_loop_fail _ _ _ _ m1) by (done || (unfold maxRetries; lia)).
  rewrite (initializeDatabase_loop_fail _ _ _ _ m2) by (done || (unfold maxRetries; lia)).
  rewrite (initializeDatabase_loop_fail _ _ _ _ m3) by (done || (unfold maxRetries; lia)).
  rewrite (initializeDatabase_loop_fail _ _ _ _ m4) by (done || (unfold maxRetries; lia)).
  rewrite initializeDatabase_loop_exit by (unfold maxRetries; lia).
  eexists. eexists. split; [reflexivity|]. cbn [table log].
  split; [reflexivity|]. split; [by rewrite <- !app_assoc|]. reflexivity.
Qed.

Lemma initializeDatabase_retry_bound_witness :
  exists w' new,
    initializeDatabase (mkEnv example_http create_fault) empty_world
      = Some (Ret tt, w') /\
    table w' = table empty_world /\
    log w' = log empty_world ++ new /\
    List.filter is_effect new =
      [EvQuery CreateTable; EvSleep 5000;
       EvQuery CreateTable; EvSleep 5000;
       EvQuery CreateTable; EvSleep 5000;
       EvQuery CreateTable; EvSleep 5000;
       EvQuery CreateTable].
Proof.
  apply (initializeDatabase_retry_bound (mkEnv example_http create_fault)
           empty_world).
  intros k. simpl. eauto.
Defined.

(** C5, as the code has it. When the database accepts the reads of the
    cycle, no record returned by the cycle has a nickname that was stored
    when the cycle started (nor, then, one of a read made at that moment). *)
Theorem returned_records_are_fresh env urls w vote :
  reads_ok env ->
  vote ∈ returned (pollVotes env urls w).1 ->
  (nickname vote ∉ dom (table w)) /\
  (nickname vote ∉ snapshot env (table w) (dbclock w)).
Proof.
  intros Hr Hin. rewrite pollVotes_returns in Hin. cbn [returned] in Hin.
  apply cycle_novel_fresh in Hin; [|done].
  split; [done|]. by rewrite snapshot_ok.
Qed.

Lemma returned_records_are_fresh_witness :
  ("y" ∉ dom (table (world_with {[ "x" := 1 ]}))) /\
  ("y" ∉ snapshot healthy_env (table (world_with {[ "x" := 1 ]})) 0).
Proof.
  apply (returned_records_are_fresh healthy_env ["A"; "B"]
           (world_with {[ "x" := 1 ]}) (mkVote "y" 1) healthy_reads_ok).
  vm_compute. apply list_elem_of_here.
Defined.

(** C5 as stated fails: [x] is stored and read at the start of the cycle,
    the read made for the second source is rejected, and the second source's
    record of [x] is returned. *)
Lemma known_nickname_returned_after_failed_read :
  ~ dedup_against_start (mkEnv example_http (read_fault 1)) ["A"; "B"]
      (world_with {[ "x" := 1 ]}).
Proof.
  intros H. apply (H (mkVote "x" 2)).
  - vm_compute. apply list_elem_of_here.
  - vm_compute. apply list_elem_of_here.
Qed.




(** C7. Whatever the failure kind of a source (the request does not
    complete, the status is not 2xx, [voters] is not an array),
    [fetchVotesFromApi] returns the empty list for it, without touching the
    table; and for every answer of every source neither [fetchVotesFromApi]
    nor [pollVotes] ever throws. *)
Theorem fetch_failure_degrades_to_empty env url w kind :
  failure_kind (http env url) = Some kind ->
  (fetchVotesFromApi env url w).1 = Ret [] /\
  table (fetchVotesFromApi env url w).2 = table w /\
  (forall url' w', exists vs, (fetchVotesFromApi env url' w').1 = Ret vs) /\
  (forall urls w', exists vs, (pollVotes env urls w').1 = Ret vs).
Proof.
  intros Hkind%failure_kind_no_voters.
  destruct (fetchVotesFromApi_run env url w) as (new & Hrun & _).
  rewrite Hrun. unfold source_novel, source_table. rewrite Hkind.
  split; [done|]. split; [done|]. split.
  - intros url' w'. rewrite fetchVotesFromApi_returns. eauto.
  - intros urls w'. rewrite pollVotes_returns. eauto.
Qed.

Lemma fetch_failure_degrades_to_empty_witness :
  (failure_kind (http healthy_env "offline") = Some NetworkFailure /\
   (fetchVotesFromApi healthy_env "offline" empty_world).1 = Ret []) /\
  (failure_kind (http healthy_env "status") = Some StatusFailure /\
   (fetchVotesFromApi healthy_env "status" empty_world).1 = Ret []) /\
  (failure_kind (http healthy_env "shape") = Some ShapeFailure /\
   (fetchVotesFromApi healthy_env "shape" empty_world).1 = Ret []).
Proof.
  split; [|split]; (split; [reflexivity|]).
  - exact (proj1 (fetch_failure_degrades_to_empty healthy_env "offline"
                    empty_world NetworkFailure eq_refl)).
  - exact (proj1 (fetch_failure_degrades_to_empty healthy_env "status"
                    empty_world StatusFailure eq_refl)).
  - exact (proj1 (fetch_failure_degrades_to_empty healthy_env "shape"
                    empty_world ShapeFailure eq_refl)).
Defined.

(** C8, as the code has it. A batch in which some rows are rejected returns
    normally, exactly as a batch without rejection does. Every row's
    statement is sent, and the accepted rows are written (once every row
    has settled) as if the rejected ones were not in the batch. The batch
    writes exactly one console line: the success line when no row is
    rejected, and otherwise one error line for the whole batch, carrying the
    message of one of the rejected rows, and no success line. *)
Theorem save_partial_failure env rows w :
  (saveVotesToDatabase env rows w).1 = Ret tt /\
  table (saveVotesToDatabase env rows w).2 =
    foldl upsert_row (table w) (accepted env (dbclock w) rows) /\
  exists new line,
    log (saveVotesToDatabase env rows w).2 = log w ++ new /\
    statements new = map upsert_stmt rows /\
    List.filter is_console new = [line] /\
    match rejected env (dbclock w) rows with
    | [] => line = EvLog VotesSaved
    | _ :: _ =>
        exists vote msg,
          (vote, msg) ∈ rejected env (dbclock w) rows /\
          line = EvError (SaveError msg)
    end.
Proof.
  rewrite saveVotesToDatabase_run. cbn [fst snd table log].
  split; [done|]. split; [apply write_rows_accepted|].
  eexists _, (save_outcome env (dbclock w) rows). split; [reflexivity|].
  split; [|split].
  - rewrite statements_app, statements_upserts.
    destruct (save_outcome_silent env (dbclock w) rows) as [_ Hs].
    rewrite statements_cons, Hs. by rewrite app_nil_r.
  - rewrite List.filter_app, console_upserts. cbn [app List.filter].
    unfold save_outcome.
    by destruct (rejected env (dbclock w) rows) as [|[? ?] ?].
  - unfold save_outcome.
    destruct (rejected env (dbclock w) rows) as [|[vote msg] rest]; [done|].
    exists vote, msg. split; [apply list_elem_of_here | done].
Qed.

(** C8 as stated fails: two rows of a batch of three are rejected, and one
    report is written. *)
Lemma save_failures_not_per_row :
  ~ reported_per_row (mkEnv example_http first_two_fault)
      [mkVote "a" 1; mkVote "b" 1; mkVote "c" 1] empty_world.
Proof.
  intros (new & Hlog & Herr). vm_compute in Hlog. subst new.
  vm_compute in Herr. discriminate Herr.
Qed.

(** C9, as the code has it. When no source reports a negative [votes] value
    and no stored count is negative, no stored count is negative after a
    cycle, no nickname is lost and no count is lower than before the cycle;
    and [initializeDatabase] does not change the table. *)
Theorem counts_grow_for_nonnegative_votes env urls w :
  (forall url voters,
     voters_of (http env url) = Some voters -> nonneg_rows voters) ->
  nonneg (table w) ->
  nonneg (table (pollVotes env urls w).2) /\
  grows (table w) (table (pollVotes env urls w).2) /\
  exists w', initializeDatabase env w = Some (Ret tt, w') /\ table w' = table w.
Proof.
  intros Hvotes Ht. rewrite pollVotes_table.
  destruct (cycle_table_grows env urls (table w) (dbclock w) Hvotes Ht)
    as [Hnn Hgr].
  split; [done|]. split; [done|]. apply initializeDatabase_returns.
Qed.

Lemma counts_grow_for_nonnegative_votes_witness :
  let env := mkEnv positive_http (read_fault 0) in
  let w := world_with {[ "x" := 1 ]} in
  nonneg (table (pollVotes env ["x"; "y"] w).2) /\
  grows (table w) (table (pollVotes env ["x"; "y"] w).2).
Proof.
  intros env w.
  destruct (counts_grow_for_nonnegative_votes env ["x"; "y"] w)
    as (Hnn & Hgr & _).
  - intros url voters [= <-] vote Hin.
    apply list_elem_of_singleton in Hin as ->. simpl. lia.
  - intros n c Hn. unfold w, world_with in Hn. cbn [table] in Hn.
    apply lookup_singleton_Some in Hn as [_ <-]. lia.
  - by split.
Defined.

(** C9 as stated fails: a negative [votes] value is stored as it is, and,
    when the read of the stored votes is rejected, added to a stored count. *)
Lemma negative_votes_lower_the_count :
  ~ nonneg (table (pollVotes healthy_env ["N"] empty_world).2) /\
  ~ grows {[ "x" := 5 ]}
      (table (pollVotes (mkEnv example_http (read_fault 0)) ["N"]
                (world_with {[ "x" := 5 ]})).2).
Proof.
  split.
  - intros H. specialize (H "x" (-2)). vm_compute in H. by apply H.
  - intros H. destruct (H "x" 5) as (c' & Hc & Hle); [done|].
    vm_compute in Hc. injection Hc as <-. lia.
Qed.

(** C10. When the read of the stored votes is rejected, every record of the
    source is returned, by [fetchVotesFromApi] and by the cycle, and every
    one is sent to the database: a nickname stored before with count [c]
    ends, when the database accepts the writes, with [c] plus the votes the
    source reported for it. *)
Theorem read_failure_makes_all_novel env url voters w msg :
  voters_of (http env url) = Some voters ->
  db_fault env (dbclock w) SelectVotes = Some msg ->
  (fetchVotesFromApi env url w).1 = Ret voters /\
  (pollVotes env [url] w).1 = Ret voters /\
  table (pollVotes env [url] w).2 =
    foldl upsert_row (table w) (accepted env (S (dbclock w)) voters) /\
  (writes_ok env ->
   forall n c, table w !! n = Some c ->
     table (pollVotes env [url] w).2 !! n = Some (c + total n voters)).
Proof.
  intros Hv Hread.
  pose proof (novel_read_rejected env (table w) (dbclock w) voters msg Hread)
    as Hall.
  rewrite fetchVotesFromApi_returns, pollVotes_returns, pollVotes_table.
  cbn [cycle_novel cycle_table]. unfold source_novel, source_table.
  rewrite Hv, Hall, app_nil_r, write_rows_accepted.
  split; [done|]. split; [done|]. split; [done|].
  intros Hw n c Hn. rewrite accepted_all by done.
  by apply lookup_foldl_upsert_Some.
Qed.

Lemma read_failure_makes_all_novel_witness :
  let env := mkEnv example_http (read_fault 0) in
  let w := world_with {[ "x" := 1 ]} in
  (fetchVotesFromApi env "A" w).1 = Ret [mkVote "x" 3] /\
  (pollVotes env ["A"] w).1 = Ret [mkVote "x" 3] /\
  table (pollVotes env ["A"] w).2 !! "x" = Some 4.
Proof.
  intros env w.
  destruct (read_failure_makes_all_novel env "A" [mkVote "x" 3] w "ETIMEDOUT")
    as (Hfetch & Hpoll & _ & Hacc); [reflexivity | reflexivity |].
  split; [exact Hfetch|]. split; [exact Hpoll|].
  apply (Hacc (fun _ _ _ => eq_refl) "x" 1). reflexivity.
Defined.
